(** * Xiangqi rules engine: a shallow embedding of [chess_core/engine.py]

    The class [ChineseChess] is a mutable object whose methods read and
    write [self].  Every method is embedded as a computation in a small
    state-and-error monad over the record [ChineseChess]: a computation takes
    the object, and either raises (no result) or returns a value together
    with the object as the method left it.

    The board is a NumPy array of shape (10, 9) and dtype int8.  It is
    modelled as a list of rows of [Z] cells; the int8 arithmetic the engine
    performs on cells ([piece * sign], [abs(piece)]) is written with its
    wrap-around. *)

From stdpp Require Import base list.
From Stdlib Require Import ZArith Lia Bool List Sorted.
Import ListNotations.

Local Open Scope Z_scope.

(** ** Data model *)

(** A move is the 4-tuple [(x1, y1, x2, y2)]. *)
Definition move : Type := Z * Z * Z * Z.

Definition move_eqb (a b : move) : bool :=
  let '(a1, a2, a3, a4) := a in
  let '(b1, b2, b3, b4) := b in
  (a1 =? b1) && (a2 =? b2) && (a3 =? b3) && (a4 =? b4).

(** [move in moves] on a Python list of tuples. *)
Definition move_in (m : move) (ms : list move) : bool := existsb (move_eqb m) ms.

(** The two values [current_player] and [winner] take: ['red'], ['black']. *)
Inductive player : Type := Red | Black.

Definition player_eqb (p q : player) : bool :=
  match p, q with
  | Red, Red | Black, Black => true
  | _, _ => false
  end.

(** One entry of [move_history]: the dict with keys player, move, captured. *)
Record history_entry : Type := HistoryEntry {
  h_player : player;
  h_move : move;
  h_captured : Z
}.

(** The attributes of a [ChineseChess] object. *)
Record ChineseChess : Type := MkChess {
  board : list (list Z);
  current_player : player;
  game_over : bool;
  winner : option player;
  move_history : list history_entry;
  board_hash : option Z
}.

(** ** int8 arithmetic *)

Definition wrap8 (z : Z) : Z := (z + 128) mod 256 - 128.

(** [a * b] on int8 operands, the Python int [sign] taking the array's
    dtype.  For every cell value other than -128 and [b] in {1, -1} this is
    the plain product ([mul8_sign]), whatever the promotion rule. *)
Definition mul8 (a b : Z) : Z := wrap8 (a * b).

(** [abs(a)] on an int8 operand. *)
Definition abs8 (a : Z) : Z := wrap8 (Z.abs a).

(** ** NumPy indexing of the (10, 9) array *)

Definition ROWS : Z := 10.
Definition COLS : Z := 9.

(** An index along an axis of size [n]: negative indices count from the
    end, anything outside [-n, n) raises IndexError. *)
Definition np_index (n i : Z) : option nat :=
  if (0 <=? i) && (i <? n) then Some (Z.to_nat i)
  else if (- n <=? i) && (i <? 0) then Some (Z.to_nat (i + n))
  else None.

(** [board[x, y]] as NumPy evaluates it. *)
Definition np_getitem (b : list (list Z)) (x y : Z) : option Z :=
  match np_index ROWS x, np_index COLS y with
  | Some i, Some j =>
      match b !! i with
      | Some row => row !! j
      | None => None
      end
  | _, _ => None
  end.

(** [0 <= x < 10 and 0 <= y < 9] *)
Definition in_bounds (x y : Z) : bool :=
  (0 <=? x) && (x <? 10) && (0 <=? y) && (y <? 9).

(** A read that refuses every index outside the grid: it has a value only
    where [0 <= x < 10] and [0 <= y < 9].  A computation that succeeds with
    this read in place of [np_getitem] made no access out of the grid. *)
Definition checked_getitem (b : list (list Z)) (x y : Z) : option Z :=
  if in_bounds x y then
    match b !! Z.to_nat x with
    | Some row => row !! Z.to_nat y
    | None => None
    end
  else None.

(** [board[x, y] = v] as NumPy evaluates it. *)
Definition np_setitem (b : list (list Z)) (x y v : Z) : option (list (list Z)) :=
  match np_index ROWS x, np_index COLS y with
  | Some i, Some j =>
      match b !! i with
      | Some row =>
          if decide (j < length row)%nat then Some (<[i := <[j := v]> row]> b)
          else None
      | None => None
      end
  | _, _ => None
  end.

(** [range(lo, hi)] *)
Fixpoint zseq (lo : Z) (n : nat) : list Z :=
  match n with
  | O => []
  | S n' => lo :: zseq (lo + 1) n'
  end.

Definition range (lo hi : Z) : list Z := zseq lo (Z.to_nat (hi - lo)).

(** ** The monad of methods *)

Definition M (A : Type) : Type := ChineseChess -> option (A * ChineseChess).

Definition ret {A} (a : A) : M A := fun s => Some (a, s).

Definition bind {A B} (m : M A) (f : A -> M B) : M B :=
  fun s => match m s with
           | Some (a, s') => f a s'
           | None => None
           end.

Notation "x <~ m ;; k" := (bind m (fun x => k))
  (at level 100, m at next level, right associativity).
Notation "m ;;; k" := (bind m (fun _ => k))
  (at level 100, right associativity).

(** A [for] loop that threads the value its body updates. *)
Fixpoint for_each {A B} (xs : list A) (body : A -> B -> M B) (acc : B) : M B :=
  match xs with
  | [] => ret acc
  | a :: rest => acc' <~ body a acc ;; for_each rest body acc'
  end.

(** Python's short-circuit [c and e]. *)
Definition and_then (c : bool) (e : M bool) : M bool :=
  if c then e else ret false.

(** Attribute reads and writes. *)
Definition get_game_over : M bool := fun s => Some (game_over s, s).
Definition get_current_player : M player := fun s => Some (current_player s, s).
Definition get_board : M (list (list Z)) := fun s => Some (board s, s).

Definition set_board (b : list (list Z)) : M unit := fun s =>
  Some (tt, MkChess b (current_player s) (game_over s) (winner s)
                    (move_history s) (board_hash s)).
Definition set_current_player (p : player) : M unit := fun s =>
  Some (tt, MkChess (board s) p (game_over s) (winner s)
                    (move_history s) (board_hash s)).
Definition set_game_over (g : bool) : M unit := fun s =>
  Some (tt, MkChess (board s) (current_player s) g (winner s)
                    (move_history s) (board_hash s)).
Definition set_winner (w : option player) : M unit := fun s =>
  Some (tt, MkChess (board s) (current_player s) (game_over s) w
                    (move_history s) (board_hash s)).
Definition append_history (e : history_entry) : M unit := fun s =>
  Some (tt, MkChess (board s) (current_player s) (game_over s) (winner s)
                    (move_history s ++ [e]) (board_hash s)).

(** [self.board[x, y] = v] *)
Definition board_store (x y v : Z) : M unit := fun s =>
  match np_setitem (board s) x y v with
  | Some b => set_board b s
  | None => None
  end.

(** ** Geometry predicates *)

(** [_is_in_palace] *)
Definition is_in_palace (x y sign : Z) : bool :=
  (if sign =? 1 then (7 <=? x) && (x <=? 9) else (0 <=? x) && (x <=? 2))
  && ((3 <=? y) && (y <=? 5)).

(** [_is_in_territory] *)
Definition is_in_territory (x sign : Z) : bool :=
  if sign =? 1 then (5 <=? x) && (x <=? 9) else (0 <=? x) && (x <=? 4).

(** [a // 2]: Python's floor division. *)
Definition floordiv2 (a : Z) : Z := a / 2.

(** ** Move generation and move application *)

Section Engine.

(** How [self.board[x, y]] is evaluated. *)
Variable getitem : list (list Z) -> Z -> Z -> option Z.

Definition board_at (x y : Z) : M Z := fun s =>
  match getitem (board s) x y with
  | Some v => Some (v, s)
  | None => None
  end.

(** The body shared by [_general_moves] and [_advisor_moves]. *)
Definition palace_step (x y sign : Z) (d : Z * Z) (moves : list move)
  : M (list move) :=
  let '(dx, dy) := d in
  let nx := x + dx in
  let ny := y + dy in
  ok <~ and_then (is_in_palace nx ny sign)
                 (t <~ board_at nx ny ;; ret (mul8 t sign <=? 0)) ;;
  if ok then ret (moves ++ [(x, y, nx, ny)]) else ret moves.

Definition general_moves (x y sign : Z) : M (list move) :=
  for_each [(0, 1); (1, 0); (0, -1); (-1, 0)] (palace_step x y sign) [].

Definition advisor_moves (x y sign : Z) : M (list move) :=
  for_each [(1, 1); (1, -1); (-1, 1); (-1, -1)] (palace_step x y sign) [].

(** The test on the blocking cell and the destination shared by
    [_elephant_moves] and [_horse_moves]. *)
Definition block_step (x y sign : Z) (d : Z * Z) (moves : list move)
  : M (list move) :=
  let '(dx, dy) := d in
  let nx := x + dx in
  let ny := y + dy in
  let block_x := x + floordiv2 dx in
  let block_y := y + floordiv2 dy in
  ok <~ and_then (in_bounds block_x block_y)
          (b <~ board_at block_x block_y ;;
           and_then (b =? 0)
             (t <~ board_at nx ny ;; ret (mul8 t sign <=? 0))) ;;
  if ok then ret (moves ++ [(x, y, nx, ny)]) else ret moves.

Definition elephant_moves (x y sign : Z) : M (list move) :=
  for_each [(2, 2); (2, -2); (-2, 2); (-2, -2)]
    (fun d moves =>
       let nx := x + fst d in
       let ny := y + snd d in
       if negb (in_bounds nx ny) then ret moves
       else if is_in_territory nx sign then block_step x y sign d moves
       else ret moves)
    [].

Definition horse_directions : list (Z * Z) :=
  [(1, 2); (2, 1); (1, -2); (2, -1); (-1, 2); (-2, 1); (-1, -2); (-2, -1)].

Definition horse_moves (x y sign : Z) : M (list move) :=
  for_each horse_directions
    (fun d moves =>
       let nx := x + fst d in
       let ny := y + snd d in
       if negb (in_bounds nx ny) then ret moves
       else block_step x y sign d moves)
    [].

Definition orthogonal : list (Z * Z) := [(0, 1); (1, 0); (0, -1); (-1, 0)].

(** The inner loop of [_chariot_moves] over the remaining steps. *)
Fixpoint chariot_ray (x y sign dx dy : Z) (steps : list Z) (moves : list move)
  : M (list move) :=
  match steps with
  | [] => ret moves
  | step :: rest =>
      let nx := x + dx * step in
      let ny := y + dy * step in
      if negb (in_bounds nx ny) then ret moves
      else
        target <~ board_at nx ny ;;
        if target =? 0 then
          chariot_ray x y sign dx dy rest (moves ++ [(x, y, nx, ny)])
        else if mul8 target sign <? 0 then ret (moves ++ [(x, y, nx, ny)])
        else ret moves
  end.

Definition chariot_moves (x y sign : Z) : M (list move) :=
  for_each orthogonal
    (fun d moves => chariot_ray x y sign (fst d) (snd d) (range 1 10) moves)
    [].

(** The inner loop of [_cannon_moves] over the remaining steps. *)
Fixpoint cannon_ray (x y sign dx dy : Z) (steps : list Z) (has_jumped : bool)
    (moves : list move) : M (list move) :=
  match steps with
  | [] => ret moves
  | step :: rest =>
      let nx := x + dx * step in
      let ny := y + dy * step in
      if negb (in_bounds nx ny) then ret moves
      else
        target <~ board_at nx ny ;;
        if negb has_jumped then
          if target =? 0 then
            cannon_ray x y sign dx dy rest has_jumped (moves ++ [(x, y, nx, ny)])
          else cannon_ray x y sign dx dy rest true moves
        else if negb (target =? 0) then
          if mul8 target sign <? 0 then ret (moves ++ [(x, y, nx, ny)])
          else ret moves
        else cannon_ray x y sign dx dy rest has_jumped moves
  end.

Definition cannon_moves (x y sign : Z) : M (list move) :=
  for_each orthogonal
    (fun d moves =>
       cannon_ray x y sign (fst d) (snd d) (range 1 10) false moves)
    [].

Definition soldier_directions (x sign : Z) : list (Z * Z) :=
  if sign =? 1 then
    [(-1, 0)] ++ (if x <=? 4 then [(0, 1); (0, -1)] else [])
  else
    [(1, 0)] ++ (if 5 <=? x then [(0, 1); (0, -1)] else []).

Definition soldier_moves (x y sign : Z) : M (list move) :=
  for_each (soldier_directions x sign)
    (fun d moves =>
       let nx := x + fst d in
       let ny := y + snd d in
       if negb (in_bounds nx ny) then ret moves
       else
         t <~ board_at nx ny ;;
         if mul8 t sign <=? 0 then ret (moves ++ [(x, y, nx, ny)])
         else ret moves)
    [].

(** [_get_piece_moves] *)
Definition get_piece_moves (x y piece_type sign : Z) : M (list move) :=
  if piece_type =? 1 then general_moves x y sign
  else if piece_type =? 2 then advisor_moves x y sign
  else if piece_type =? 3 then elephant_moves x y sign
  else if piece_type =? 4 then horse_moves x y sign
  else if piece_type =? 5 then chariot_moves x y sign
  else if piece_type =? 6 then cannon_moves x y sign
  else if piece_type =? 7 then soldier_moves x y sign
  else ret [].

(** [sign = 1 if player == 'red' else -1] *)
Definition sign_of (p : player) : Z :=
  if player_eqb p Red then 1 else -1.

Definition get_legal_moves (p : player) : M (list move) :=
  let sign := sign_of p in
  for_each (range 0 10)
    (fun i moves =>
       for_each (range 0 9)
         (fun j moves =>
            piece <~ board_at i j ;;
            if 0 <? mul8 piece sign then
              pm <~ get_piece_moves i j (abs8 piece) sign ;;
              ret (moves ++ pm)
            else ret moves)
         moves)
    [].

(** [np.any(self.board == v)] *)
Definition board_has (b : list (list Z)) (v : Z) : bool :=
  existsb (existsb (Z.eqb v)) b.

(** [_check_game_over] *)
Definition check_game_over : M unit :=
  b <~ get_board ;;
  let red_has_general := board_has b 1 in
  let black_has_general := board_has b (-1) in
  if negb red_has_general then
    set_game_over true ;;; set_winner (Some Black)
  else if negb black_has_general then
    set_game_over true ;;; set_winner (Some Red)
  else ret tt.

Definition other (p : player) : player :=
  if player_eqb p Red then Black else Red.

(** [make_move] *)
Definition make_move (mv : move) : M bool :=
  over <~ get_game_over ;;
  if over then ret false
  else
    let '(x1, y1, x2, y2) := mv in
    p <~ get_current_player ;;
    legal <~ get_legal_moves p ;;
    if negb (move_in mv legal) then ret false
    else
      captured_piece <~ board_at x2 y2 ;;
      moving <~ board_at x1 y1 ;;
      board_store x2 y2 moving ;;;
      board_store x1 y1 0 ;;;
      p <~ get_current_player ;;
      append_history (HistoryEntry p mv captured_piece) ;;;
      p <~ get_current_player ;;
      set_current_player (other p) ;;;
      check_game_over ;;;
      ret true.

End Engine.

(** [_init_board]: a zero array, then the assignments in source order. *)
Definition zeros : list (list Z) := repeat (repeat 0 9%nat) 10%nat.

Fixpoint assign_all (b : list (list Z)) (ws : list (Z * Z * Z))
  : option (list (list Z)) :=
  match ws with
  | [] => Some b
  | (x, y, v) :: rest =>
      match np_setitem b x y v with
      | Some b' => assign_all b' rest
      | None => None
      end
  end.

Definition init_board : option (list (list Z)) :=
  assign_all zeros
    [ (9, 0, 5); (9, 8, 5);
      (9, 1, 4); (9, 7, 4);
      (9, 2, 3); (9, 6, 3);
      (9, 3, 2); (9, 5, 2);
      (9, 4, 1);
      (7, 1, 6); (7, 7, 6);
      (6, 0, 7); (6, 2, 7); (6, 4, 7); (6, 6, 7); (6, 8, 7);
      (0, 0, -5); (0, 8, -5);
      (0, 1, -4); (0, 7, -4);
      (0, 2, -3); (0, 6, -3);
      (0, 3, -2); (0, 5, -2);
      (0, 4, -1);
      (2, 1, -6); (2, 7, -6);
      (3, 0, -7); (3, 2, -7); (3, 4, -7); (3, 6, -7); (3, 8, -7) ].

(** [ChineseChess()] *)
Definition new_game : option ChineseChess :=
  match init_board with
  | Some b => Some (MkChess b Red false None [] None)
  | None => None
  end.

(** ** Board predicates used by the statements *)

(** The shape (10, 9). *)
Definition shape_ok (b : list (list Z)) : bool :=
  (length b =? 10)%nat && forallb (fun r => (length r =? 9)%nat) b.

(** No cell holds -128, the one int8 value whose negation overflows.  Every
    piece code of the data model (-7 .. 7) passes. *)
Definition cells_ok (b : list (list Z)) : bool :=
  forallb (forallb (fun v => (-128 <? v) && (v <? 128))) b.

Definition wf_board (b : list (list Z)) : bool := shape_ok b && cells_ok b.

(** The cell at an index inside the grid (0 elsewhere). *)
Definition cell (b : list (list Z)) (x y : Z) : Z :=
  match b !! Z.to_nat x with
  | Some row => default 0 (row !! Z.to_nat y)
  | None => 0
  end.

(** A read agrees with the grid wherever the index is inside it. *)
Definition reads_grid (getitem : list (list Z) -> Z -> Z -> option Z) : Prop :=
  forall b x y, shape_ok b = true -> in_bounds x y = true ->
                getitem b x y = Some (cell b x y).

(** A cell value [v] is a piece of the side with sign [sign] / of the other
    side. *)
Definition own_piece (v sign : Z) : Prop := v * sign > 0.
Definition enemy_piece (v sign : Z) : Prop := v * sign < 0.

(** A computation that leaves the object as it found it. *)
Definition read_only {A} (m : M A) : Prop :=
  forall s r s', m s = Some (r, s') -> s' = s.

(** Number of cells holding [v]. *)
Fixpoint count_row (v : Z) (r : list Z) : nat :=
  match r with
  | [] => O
  | c :: r' => ((if Z.eqb c v then 1 else 0) + count_row v r')%nat
  end.

Fixpoint count_cells (v : Z) (b : list (list Z)) : nat :=
  match b with
  | [] => O
  | r :: b' => (count_row v r + count_cells v b')%nat
  end.

(** The General of a side: 1 for Red, -1 for Black. *)
Definition general_of (p : player) : Z := sign_of p.

(** States a game can be in: a new game, and whatever [make_move] leaves. *)
Inductive reachable : ChineseChess -> Prop :=
| reachable_new s : new_game = Some s -> reachable s
| reachable_move s mv r s' :
    reachable s -> make_move np_getitem mv s = Some (r, s') -> reachable s'.

(** ** What the generators compute on a grid

    The lists below are the values of the generator loops when every read
    they make is inside the grid; the lemmas [*_run] establish that. *)

Definition palace_dest (b : list (list Z)) (x y sign : Z) (d : Z * Z) : list move :=
  let nx := x + fst d in
  let ny := y + snd d in
  if is_in_palace nx ny sign && (mul8 (cell b nx ny) sign <=? 0)
  then [(x, y, nx, ny)] else [].

Definition block_dest (b : list (list Z)) (x y sign : Z) (d : Z * Z) : list move :=
  let nx := x + fst d in
  let ny := y + snd d in
  let block_x := x + floordiv2 (fst d) in
  let block_y := y + floordiv2 (snd d) in
  if in_bounds block_x block_y && (cell b block_x block_y =? 0)
     && (mul8 (cell b nx ny) sign <=? 0)
  then [(x, y, nx, ny)] else [].

Definition elephant_dest (b : list (list Z)) (x y sign : Z) (d : Z * Z) : list move :=
  if in_bounds (x + fst d) (y + snd d) && is_in_territory (x + fst d) sign
  then block_dest b x y sign d else [].

Definition horse_dest (b : list (list Z)) (x y sign : Z) (d : Z * Z) : list move :=
  if in_bounds (x + fst d) (y + snd d) then block_dest b x y sign d else [].

Definition soldier_dest (b : list (list Z)) (x y sign : Z) (d : Z * Z) : list move :=
  let nx := x + fst d in
  let ny := y + snd d in
  if in_bounds nx ny && (mul8 (cell b nx ny) sign <=? 0)
  then [(x, y, nx, ny)] else [].

Fixpoint chariot_scan (b : list (list Z)) (x y sign dx dy : Z) (steps : list Z)
  : list move :=
  match steps with
  | [] => []
  | step :: rest =>
      let nx := x + dx * step in
      let ny := y + dy * step in
      if negb (in_bounds nx ny) then []
      else if cell b nx ny =? 0 then
        (x, y, nx, ny) :: chariot_scan b x y sign dx dy rest
      else if mul8 (cell b nx ny) sign <? 0 then [(x, y, nx, ny)]
      else []
  end.

Fixpoint cannon_scan (b : list (list Z)) (x y sign dx dy : Z) (steps : list Z)
    (has_jumped : bool) : list move :=
  match steps with
  | [] => []
  | step :: rest =>
      let nx := x + dx * step in
      let ny := y + dy * step in
      if negb (in_bounds nx ny) then []
      else if negb has_jumped then
        if cell b nx ny =? 0 then
          (x, y, nx, ny) :: cannon_scan b x y sign dx dy rest has_jumped
        else cannon_scan b x y sign dx dy rest true
      else if negb (cell b nx ny =? 0) then
        if mul8 (cell b nx ny) sign <? 0 then [(x, y, nx, ny)] else []
      else cannon_scan b x y sign dx dy rest has_jumped
  end.

Definition piece_dests (b : list (list Z)) (x y piece_type sign : Z) : list move :=
  if piece_type =? 1 then
    flat_map (palace_dest b x y sign) [(0, 1); (1, 0); (0, -1); (-1, 0)]
  else if piece_type =? 2 then
    flat_map (palace_dest b x y sign) [(1, 1); (1, -1); (-1, 1); (-1, -1)]
  else if piece_type =? 3 then
    flat_map (elephant_dest b x y sign) [(2, 2); (2, -2); (-2, 2); (-2, -2)]
  else if piece_type =? 4 then
    flat_map (horse_dest b x y sign) horse_directions
  else if piece_type =? 5 then
    flat_map (fun d => chariot_scan b x y sign (fst d) (snd d) (range 1 10))
             orthogonal
  else if piece_type =? 6 then
    flat_map (fun d => cannon_scan b x y sign (fst d) (snd d) (range 1 10) false)
             orthogonal
  else if piece_type =? 7 then
    flat_map (soldier_dest b x y sign) (soldier_directions x sign)
  else [].

Definition legal_dests (b : list (list Z)) (sign : Z) : list move :=
  flat_map
    (fun i =>
       flat_map
         (fun j =>
            if 0 <? mul8 (cell b i j) sign
            then piece_dests b i j (abs8 (cell b i j)) sign
            else [])
         (range 0 9))
    (range 0 10).

(** The grid after [board[x, y] = v] at an index inside it. *)
Definition put (b : list (list Z)) (x y v : Z) : list (list Z) :=
  match b !! Z.to_nat x with
  | Some row => <[Z.to_nat x := <[Z.to_nat y := v]> row]> b
  | None => b
  end.

(** The object [make_move] leaves on its successful path. *)
Definition moved_board (b : list (list Z)) (mv : move) : list (list Z) :=
  let '(x1, y1, x2, y2) := mv in
  put (put b x2 y2 (cell b x1 y1)) x1 y1 0.

Definition after_move (s : ChineseChess) (mv : move) : ChineseChess :=
  let '(x1, y1, x2, y2) := mv in
  let b := moved_board (board s) mv in
  let p := current_player s in
  let h := move_history s ++ [HistoryEntry p mv (cell (board s) x2 y2)] in
  if negb (board_has b 1) then
    MkChess b (other p) true (Some Black) h (board_hash s)
  else if negb (board_has b (-1)) then
    MkChess b (other p) true (Some Red) h (board_hash s)
  else
    MkChess b (other p) (game_over s) (winner s) h (board_hash s).

(** The destination [(nx, ny)] of a generated move is inside the grid and
    the code's test [board[nx, ny] * sign <= 0] holds of it. *)
Definition lands (b : list (list Z)) (sign x y : Z) (m : move) : Prop :=
  exists nx ny, m = (x, y, nx, ny) /\ in_bounds nx ny = true /\
                mul8 (cell b nx ny) sign <= 0.

(** The grid of a new game, row 0 (Black's back rank) first. *)
Definition start_board : list (list Z) :=
  [ [-5; -4; -3; -2; -1; -2; -3; -4; -5];
    [ 0;  0;  0;  0;  0;  0;  0;  0;  0];
    [ 0; -6;  0;  0;  0;  0;  0; -6;  0];
    [-7;  0; -7;  0; -7;  0; -7;  0; -7];
    [ 0;  0;  0;  0;  0;  0;  0;  0;  0];
    [ 0;  0;  0;  0;  0;  0;  0;  0;  0];
    [ 7;  0;  7;  0;  7;  0;  7;  0;  7];
    [ 0;  6;  0;  0;  0;  0;  0;  6;  0];
    [ 0;  0;  0;  0;  0;  0;  0;  0;  0];
    [ 5;  4;  3;  2;  1;  2;  3;  4;  5] ].

Definition start : ChineseChess := MkChess start_board Red false None [] None.

(** A state whose flag agrees with its grid: while the game is not over,
    both Generals are on the board. *)
Definition consistent (s : ChineseChess) : Prop :=
  wf_board (board s) = true /\
  (game_over s = false ->
   board_has (board s) 1 = true /\ board_has (board s) (-1) = true).

(** ** The rest of the class and its caller *)

Definition set_move_history (h : list history_entry) : M unit := fun s =>
  Some (tt, MkChess (board s) (current_player s) (game_over s) (winner s)
                    h (board_hash s)).

(** The call [self._init_board()]. *)
Definition call_init_board : M (list (list Z)) := fun s =>
  match init_board with
  | Some b => Some (b, s)
  | None => None
  end.

(** [reset] *)
Definition reset : M unit :=
  b <~ call_init_board ;;
  set_board b ;;;
  set_current_player Red ;;;
  set_game_over false ;;;
  set_winner None ;;;
  set_move_history [].

(** [get_board_state]: a copy of the grid. *)
Definition get_board_state : M (list (list Z)) := get_board.

(** One entry of [game_states] in [SelfPlayTrainer._play_single_game]
    (scripts/train.py), before the result is added. *)
Record game_record : Type := GameRecord {
  r_game_id : Z;
  r_move_number : Z;
  r_player : player;
  r_board_state : list (list Z);
  r_move : move;
  r_piece_type : Z;
  r_captured_piece : Z
}.

(** The body of the loop of [_play_single_game] from the snapshot of the
    board to the appended record, for the move [mv] the AI returned: the
    board is copied, the move is made (its result is not looked at), and the
    record is built from the game as the move left it. *)
Definition play_step (game_id move_count : Z) (mv : move) : M game_record :=
  board_state <~ get_board_state ;;
  make_move np_getitem mv ;;;
  p <~ get_current_player ;;
  let '(_, _, x2, y2) := mv in
  a <~ board_at np_getitem x2 y2 ;;
  t <~ board_at np_getitem x2 y2 ;;
  c <~ (if negb (t =? 0)
        then (v <~ board_at np_getitem x2 y2 ;; ret (abs8 v))
        else ret 0) ;;
  ret (GameRecord game_id move_count p board_state mv (abs8 a) c).

(** ** Further predicates used by the statements *)

(** Number of occupied cells. *)
Fixpoint occupied_row (r : list Z) : nat :=
  match r with
  | [] => O
  | c :: r' => ((if Z.eqb c 0 then 0 else 1) + occupied_row r')%nat
  end.

Fixpoint occupied (b : list (list Z)) : nat :=
  match b with
  | [] => O
  | r :: b' => (occupied_row r + occupied b')%nat
  end.

(** Number of history entries that record a capture. *)
Fixpoint captures (h : list history_entry) : nat :=
  match h with
  | [] => O
  | e :: h' => ((if Z.eqb (h_captured e) 0 then 0 else 1) + captures h')%nat
  end.

(** Where the confined pieces of the side with sign [sign] may stand:
    General (1) and Advisor (2) in the palace, Elephant (3) on the own side
    of the river, Soldier (7) not behind its starting row, and on its
    starting file until it has crossed the river. *)
Definition confined (sign x y v : Z) : Prop :=
  (v = 1 * sign \/ v = 2 * sign -> is_in_palace x y sign = true) /\
  (v = 3 * sign -> is_in_territory x sign = true) /\
  (v = 7 * sign ->
   (if sign =? 1 then x <= 6 else 3 <= x) /\
   (is_in_territory x sign = true -> Z.even y = true)).

(** Every cell holds a piece code, and the confined pieces of both sides
    are where they may stand. *)
Definition placed (b : list (list Z)) : Prop :=
  forall x y, in_bounds x y = true ->
    -7 <= cell b x y <= 7 /\
    confined 1 x y (cell b x y) /\ confined (-1) x y (cell b x y).

(** The side whose turn it is after [n] moves. *)
Definition turn (n : nat) : player := if Nat.even n then Red else Black.

(** Row-major order of the squares two moves start from. *)
Definition source_le (m1 m2 : move) : Prop :=
  let '(a1, b1, _, _) := m1 in
  let '(a2, b2, _, _) := m2 in
  a1 < a2 \/ (a1 = a2 /\ b1 <= b2).

(** * Proofs *)

(** ** Ranges and bounds *)

Lemma in_zseq (n : nat) : forall lo k, In k (zseq lo n) <-> lo <= k < lo + Z.of_nat n.
Proof.
  induction n as [|n IH]; intros lo k; simpl.
  - lia.
  - rewrite IH. lia.
Qed.

Lemma in_range lo hi k : In k (range lo hi) <-> lo <= k < hi.
Proof. unfold range. rewrite in_zseq. lia. Qed.

Lemma in_bounds_iff x y : in_bounds x y = true <-> 0 <= x < 10 /\ 0 <= y < 9.
Proof. unfold in_bounds. rewrite !andb_true_iff. lia. Qed.

Lemma in_bounds_false x y :
  in_bounds x y = false <-> ~ (0 <= x < 10 /\ 0 <= y < 9).
Proof.
  rewrite <- in_bounds_iff. destruct (in_bounds x y); split; congruence.
Qed.

Lemma is_in_palace_bounds x y sign :
  is_in_palace x y sign = true -> in_bounds x y = true.
Proof.
  unfold is_in_palace. rewrite in_bounds_iff.
  destruct (sign =? 1); rewrite !andb_true_iff; lia.
Qed.

(** ** Reading a well-shaped grid *)

Lemma shape_ok_length b : shape_ok b = true -> length b = 10%nat.
Proof.
  unfold shape_ok. rewrite andb_true_iff, Nat.eqb_eq. tauto.
Qed.

Lemma shape_ok_row b i row :
  shape_ok b = true -> b !! i = Some row -> length row = 9%nat.
Proof.
  unfold shape_ok. rewrite andb_true_iff, forallb_forall.
  intros [_ Hrows] Hi. apply Nat.eqb_eq, Hrows.
  apply list_elem_of_In, list_elem_of_lookup. eauto.
Qed.

Lemma shape_ok_lookup b x y :
  shape_ok b = true -> in_bounds x y = true ->
  exists row, b !! Z.to_nat x = Some row /\
              row !! Z.to_nat y = Some (cell b x y).
Proof.
  intros Hs Hb. apply in_bounds_iff in Hb.
  destruct (lookup_lt_is_Some_2 b (Z.to_nat x)) as [row Hrow].
  { rewrite (shape_ok_length b Hs). lia. }
  exists row. split; [exact Hrow|].
  pose proof (shape_ok_row b _ row Hs Hrow) as Hlen.
  destruct (lookup_lt_is_Some_2 row (Z.to_nat y)) as [v Hv]; [lia|].
  unfold cell. rewrite Hrow, Hv. reflexivity.
Qed.

Lemma np_index_in n i : 0 <= i < n -> np_index n i = Some (Z.to_nat i).
Proof.
  intros H. unfold np_index.
  destruct (0 <=? i) eqn:E1; [|lia]. destruct (i <? n) eqn:E2; [|lia].
  reflexivity.
Qed.

Lemma np_getitem_reads : reads_grid np_getitem.
Proof.
  intros b x y Hs Hb.
  destruct (shape_ok_lookup b x y Hs Hb) as (row & Hrow & Hv).
  apply in_bounds_iff in Hb. unfold np_getitem, ROWS, COLS.
  rewrite !np_index_in by lia. rewrite Hrow. exact Hv.
Qed.

Lemma checked_getitem_reads : reads_grid checked_getitem.
Proof.
  intros b x y Hs Hb.
  destruct (shape_ok_lookup b x y Hs Hb) as (row & Hrow & Hv).
  unfold checked_getitem. rewrite Hb, Hrow. exact Hv.
Qed.

Lemma checked_getitem_inside b x y v :
  checked_getitem b x y = Some v -> in_bounds x y = true.
Proof. unfold checked_getitem. destruct (in_bounds x y); congruence. Qed.

(** ** Running the loops *)

Lemma for_each_run {A} (s : ChineseChess) (xs : list A)
    (body : A -> list move -> M (list move)) (g : A -> list move) :
  (forall a acc, In a xs -> body a acc s = Some (acc ++ g a, s)) ->
  forall acc, for_each xs body acc s = Some (acc ++ flat_map g xs, s).
Proof.
  induction xs as [|a xs IH]; intros Hbody acc; simpl.
  - unfold ret. now rewrite app_nil_r.
  - unfold bind. rewrite Hbody by now left.
    rewrite IH by (intros; apply Hbody; now right).
    now rewrite app_assoc.
Qed.

Section Runs.

Variable getitem : list (list Z) -> Z -> Z -> option Z.
Hypothesis getitem_ok : reads_grid getitem.
Variable s : ChineseChess.
Hypothesis shape : shape_ok (board s) = true.

Lemma board_at_run x y :
  in_bounds x y = true ->
  board_at getitem x y s = Some (cell (board s) x y, s).
Proof.
  intros Hb. unfold board_at. now rewrite (getitem_ok _ _ _ shape Hb).
Qed.

Lemma palace_step_run x y sign d moves :
  palace_step getitem x y sign d moves s
  = Some (moves ++ palace_dest (board s) x y sign d, s).
Proof.
  destruct d as [dx dy]. unfold palace_step, palace_dest, and_then, bind, ret.
  simpl fst; simpl snd.
  destruct (is_in_palace (x + dx) (y + dy) sign) eqn:E; simpl.
  - rewrite board_at_run by now apply is_in_palace_bounds in E.
    destruct (mul8 _ sign <=? 0); [reflexivity | now rewrite app_nil_r].
  - now rewrite app_nil_r.
Qed.

Lemma block_step_run x y sign d moves :
  in_bounds (x + fst d) (y + snd d) = true ->
  block_step getitem x y sign d moves s
  = Some (moves ++ block_dest (board s) x y sign d, s).
Proof.
  destruct d as [dx dy]. simpl fst; simpl snd. intros Hn.
  unfold block_step, block_dest, and_then, bind, ret. simpl fst; simpl snd.
  destruct (in_bounds (x + floordiv2 dx) (y + floordiv2 dy)) eqn:E; simpl.
  - rewrite board_at_run by exact E.
    destruct (cell (board s) _ _ =? 0); simpl.
    + rewrite board_at_run by exact Hn.
      destruct (mul8 _ sign <=? 0); [reflexivity | now rewrite app_nil_r].
    + now rewrite app_nil_r.
  - now rewrite app_nil_r.
Qed.

Lemma general_moves_run x y sign :
  general_moves getitem x y sign s
  = Some (flat_map (palace_dest (board s) x y sign)
                   [(0, 1); (1, 0); (0, -1); (-1, 0)], s).
Proof.
  unfold general_moves.
  rewrite (for_each_run s _ _ (palace_dest (board s) x y sign)); [reflexivity|].
  intros; apply palace_step_run.
Qed.

Lemma advisor_moves_run x y sign :
  advisor_moves getitem x y sign s
  = Some (flat_map (palace_dest (board s) x y sign)
                   [(1, 1); (1, -1); (-1, 1); (-1, -1)], s).
Proof.
  unfold advisor_moves.
  rewrite (for_each_run s _ _ (palace_dest (board s) x y sign)); [reflexivity|].
  intros; apply palace_step_run.
Qed.

Lemma elephant_moves_run x y sign :
  elephant_moves getitem x y sign s
  = Some (flat_map (elephant_dest (board s) x y sign)
                   [(2, 2); (2, -2); (-2, 2); (-2, -2)], s).
Proof.
  unfold elephant_moves.
  rewrite (for_each_run s _ _ (elephant_dest (board s) x y sign)); [reflexivity|].
  intros d acc _. unfold elephant_dest.
  destruct (in_bounds (x + fst d) (y + snd d)) eqn:E; simpl.
  - destruct (is_in_territory (x + fst d) sign).
    + now apply block_step_run.
    + unfold ret. now rewrite app_nil_r.
  - unfold ret. now rewrite app_nil_r.
Qed.

Lemma horse_moves_run x y sign :
  horse_moves getitem x y sign s
  = Some (flat_map (horse_dest (board s) x y sign) horse_directions, s).
Proof.
  unfold horse_moves.
  rewrite (for_each_run s _ _ (horse_dest (board s) x y sign)); [reflexivity|].
  intros d acc _. unfold horse_dest.
  destruct (in_bounds (x + fst d) (y + snd d)) eqn:E; simpl.
  - now apply block_step_run.
  - unfold ret. now rewrite app_nil_r.
Qed.

Lemma soldier_moves_run x y sign :
  soldier_moves getitem x y sign s
  = Some (flat_map (soldier_dest (board s) x y sign)
                   (soldier_directions x sign), s).
Proof.
  unfold soldier_moves.
  rewrite (for_each_run s _ _ (soldier_dest (board s) x y sign)); [reflexivity|].
  intros d acc _. unfold soldier_dest, bind, ret.
  destruct (in_bounds (x + fst d) (y + snd d)) eqn:E; simpl.
  - rewrite board_at_run by exact E.
    destruct (mul8 _ sign <=? 0); [reflexivity | now rewrite app_nil_r].
  - now rewrite app_nil_r.
Qed.

Lemma chariot_ray_run x y sign dx dy steps :
  forall moves,
    chariot_ray getitem x y sign dx dy steps moves s
    = Some (moves ++ chariot_scan (board s) x y sign dx dy steps, s).
Proof.
  induction steps as [|k steps IH]; intros moves; simpl.
  - unfold ret. now rewrite app_nil_r.
  - destruct (in_bounds (x + dx * k) (y + dy * k)) eqn:E; simpl.
    + unfold bind. rewrite board_at_run by exact E.
      destruct (cell (board s) _ _ =? 0).
      * rewrite IH. now rewrite <- app_assoc.
      * unfold ret. destruct (mul8 _ sign <? 0);
          [reflexivity | now rewrite app_nil_r].
    + unfold ret. now rewrite app_nil_r.
Qed.

Lemma cannon_ray_run x y sign dx dy steps :
  forall jumped moves,
    cannon_ray getitem x y sign dx dy steps jumped moves s
    = Some (moves ++ cannon_scan (board s) x y sign dx dy steps jumped, s).
Proof.
  induction steps as [|k steps IH]; intros jumped moves; simpl.
  - unfold ret. now rewrite app_nil_r.
  - destruct (in_bounds (x + dx * k) (y + dy * k)) eqn:E; simpl.
    + unfold bind. rewrite board_at_run by exact E.
      destruct jumped; simpl; destruct (cell (board s) _ _ =? 0); simpl;
        rewrite ?IH, <- ?app_assoc; try reflexivity.
      unfold ret. destruct (mul8 _ sign <? 0);
        [reflexivity | now rewrite app_nil_r].
    + unfold ret. now rewrite app_nil_r.
Qed.

Lemma chariot_moves_run x y sign :
  chariot_moves getitem x y sign s
  = Some (flat_map (fun d => chariot_scan (board s) x y sign (fst d) (snd d)
                                          (range 1 10)) orthogonal, s).
Proof.
  unfold chariot_moves.
  rewrite (for_each_run s _ _
             (fun d => chariot_scan (board s) x y sign (fst d) (snd d)
                                    (range 1 10))); [reflexivity|].
  intros; apply chariot_ray_run.
Qed.

Lemma cannon_moves_run x y sign :
  cannon_moves getitem x y sign s
  = Some (flat_map (fun d => cannon_scan (board s) x y sign (fst d) (snd d)
                                         (range 1 10) false) orthogonal, s).
Proof.
  unfold cannon_moves.
  rewrite (for_each_run s _ _
             (fun d => cannon_scan (board s) x y sign (fst d) (snd d)
                                   (range 1 10) false)); [reflexivity|].
  intros; apply cannon_ray_run.
Qed.

Lemma get_piece_moves_run x y piece_type sign :
  get_piece_moves getitem x y piece_type sign s
  = Some (piece_dests (board s) x y piece_type sign, s).
Proof.
  unfold get_piece_moves, piece_dests.
  repeat match goal with |- context [if ?c then _ else _] =>
    destruct c end;
  auto using general_moves_run, advisor_moves_run, elephant_moves_run,
    horse_moves_run, chariot_moves_run, cannon_moves_run, soldier_moves_run.
Qed.

Lemma get_legal_moves_run p :
  get_legal_moves getitem p s = Some (legal_dests (board s) (sign_of p), s).
Proof.
  unfold get_legal_moves, legal_dests.
  rewrite (for_each_run s _ _
    (fun i => flat_map
       (fun j => if 0 <? mul8 (cell (board s) i j) (sign_of p)
                 then piece_dests (board s) i j (abs8 (cell (board s) i j))
                                  (sign_of p)
                 else []) (range 0 9))); [reflexivity|].
  intros i acc Hi. apply in_range in Hi.
  apply for_each_run. intros j acc' Hj. apply in_range in Hj.
  unfold bind. rewrite board_at_run by (apply in_bounds_iff; lia).
  destruct (0 <? mul8 _ _).
  - rewrite get_piece_moves_run. reflexivity.
  - unfold ret. now rewrite app_nil_r.
Qed.

End Runs.

(** ** Queries leave the object alone *)

Lemma read_only_ret {A} (a : A) : read_only (ret a).
Proof. intros s r s' H. unfold ret in H. congruence. Qed.

Lemma read_only_bind {A B} (m : M A) (f : A -> M B) :
  read_only m -> (forall a, read_only (f a)) -> read_only (bind m f).
Proof.
  intros Hm Hf s r s' H. unfold bind in H.
  destruct (m s) as [[a s1]|] eqn:E; [|discriminate].
  apply Hm in E. subst s1. exact (Hf a _ _ _ H).
Qed.

Lemma read_only_if {A} (c : bool) (m1 m2 : M A) :
  read_only m1 -> read_only m2 -> read_only (if c then m1 else m2).
Proof. now destruct c. Qed.

Lemma read_only_for_each {A B} (xs : list A) (body : A -> B -> M B) :
  (forall a acc, read_only (body a acc)) ->
  forall acc, read_only (for_each xs body acc).
Proof.
  intros Hbody. induction xs as [|a xs IH]; intros acc; simpl.
  - apply read_only_ret.
  - apply read_only_bind; auto.
Qed.

Lemma read_only_board_at getitem x y : read_only (board_at getitem x y).
Proof.
  intros s r s' H. unfold board_at in H.
  destruct (getitem (board s) x y); congruence.
Qed.

Lemma read_only_and_then c e : read_only e -> read_only (and_then c e).
Proof. intros H. unfold and_then. apply read_only_if; [exact H|apply read_only_ret]. Qed.

Create HintDb frame.
#[local] Hint Resolve read_only_ret read_only_board_at : frame.

Ltac frame :=
  repeat (intros;
    lazymatch goal with
    | |- read_only (ret _) => apply read_only_ret
    | |- read_only (board_at _ _ _) => apply read_only_board_at
    | |- read_only (for_each _ _ _) => apply read_only_for_each
    | |- read_only (and_then _ _) => apply read_only_and_then
    | |- read_only (bind _ _) => apply read_only_bind
    | |- read_only (if _ then _ else _) => apply read_only_if
    | |- read_only _ => solve [auto with frame]
    end).

Lemma read_only_palace_step getitem x y sign d moves :
  read_only (palace_step getitem x y sign d moves).
Proof. destruct d. unfold palace_step. frame. Qed.

Lemma read_only_block_step getitem x y sign d moves :
  read_only (block_step getitem x y sign d moves).
Proof. destruct d. unfold block_step. frame. Qed.

#[local] Hint Resolve read_only_palace_step read_only_block_step : frame.

Lemma read_only_chariot_ray getitem x y sign dx dy steps :
  forall moves, read_only (chariot_ray getitem x y sign dx dy steps moves).
Proof. induction steps as [|k steps IH]; intros moves; simpl; frame. Qed.

Lemma read_only_cannon_ray getitem x y sign dx dy steps :
  forall jumped moves,
    read_only (cannon_ray getitem x y sign dx dy steps jumped moves).
Proof. induction steps as [|k steps IH]; intros jumped moves; simpl; frame. Qed.

#[local] Hint Resolve read_only_chariot_ray read_only_cannon_ray : frame.

Lemma read_only_get_piece_moves getitem x y piece_type sign :
  read_only (get_piece_moves getitem x y piece_type sign).
Proof.
  unfold get_piece_moves, general_moves, advisor_moves, elephant_moves,
    horse_moves, chariot_moves, cannon_moves, soldier_moves.
  frame.
Qed.

Lemma read_only_get_legal_moves getitem p :
  read_only (get_legal_moves getitem p).
Proof.
  unfold get_legal_moves. frame. apply read_only_get_piece_moves.
Qed.

(** ** int8 products with a side's sign *)

Lemma sign_of_cases p : sign_of p = 1 \/ sign_of p = -1.
Proof. destruct p; [now left | now right]. Qed.

Lemma mul8_sign v sign :
  -128 < v < 128 -> sign = 1 \/ sign = -1 -> mul8 v sign = v * sign.
Proof.
  intros Hv Hs. unfold mul8, wrap8.
  rewrite Z.mod_small by (destruct Hs; subst; lia). lia.
Qed.

Lemma mul8_zero sign : mul8 0 sign = 0.
Proof. reflexivity. Qed.

Lemma cells_ok_cell b x y : cells_ok b = true -> -128 < cell b x y < 128.
Proof.
  unfold cells_ok, cell. rewrite forallb_forall. intros H.
  destruct (b !! Z.to_nat x) as [row|] eqn:Hrow; [|lia].
  destruct (row !! Z.to_nat y) as [v|] eqn:Hv; simpl; [|lia].
  assert (Hin : In row b).
  { apply list_elem_of_In, list_elem_of_lookup. eauto. }
  specialize (H row Hin). rewrite forallb_forall in H.
  assert (Hinv : In v row).
  { apply list_elem_of_In, list_elem_of_lookup. eauto. }
  specialize (H v Hinv). apply andb_true_iff in H. lia.
Qed.

Lemma wf_board_shape b : wf_board b = true -> shape_ok b = true.
Proof. unfold wf_board. rewrite andb_true_iff. tauto. Qed.

Lemma wf_board_cells b : wf_board b = true -> cells_ok b = true.
Proof. unfold wf_board. rewrite andb_true_iff. tauto. Qed.

(** ** The destinations on a ray *)

Section Rays.

Variable b : list (list Z).
Variables x y sign dx dy : Z.

(** Side conditions about the steps of a ray from [a] on. *)
Ltac ray_side a :=
  intros;
  first
    [ lia | assumption | contradiction
    | solve [left; ray_side a]
    | solve [right; ray_side a]
    | match goal with
      | |- context [_ * ?j] =>
          destruct (Z.eq_dec j a);
          [ subst; first [assumption | contradiction | lia]
          | first [ lia
                  | match goal with H : forall j, _ |- _ => apply H; lia end ] ]
      end ].

Lemma chariot_scan_zseq (n : nat) :
  forall a m,
    In m (chariot_scan b x y sign dx dy (zseq a n)) <->
    exists k, m = (x, y, x + dx * k, y + dy * k) /\
              a <= k < a + Z.of_nat n /\
              (forall j, a <= j <= k ->
                         in_bounds (x + dx * j) (y + dy * j) = true) /\
              (forall j, a <= j < k ->
                         cell b (x + dx * j) (y + dy * j) = 0) /\
              (cell b (x + dx * k) (y + dy * k) = 0 \/
               mul8 (cell b (x + dx * k) (y + dy * k)) sign < 0).
Proof.
  induction n as [|n IH]; intros a m; simpl.
  { split; [tauto | intros (k & _ & H & _); lia]. }
  destruct (in_bounds (x + dx * a) (y + dy * a)) eqn:E; simpl.
  2:{ split; [tauto|]. intros (k & _ & Hk & Hin & _).
      specialize (Hin a ltac:(lia)). congruence. }
  destruct (cell b (x + dx * a) (y + dy * a) =? 0) eqn:C.
  - apply Z.eqb_eq in C. simpl. rewrite IH. split.
    + intros [<- | (k & -> & Hk & Hin & Hc & Hl)].
      * exists a. repeat split; ray_side a.
      * exists k. repeat split; ray_side a.
    + intros (k & -> & Hk & Hin & Hc & Hl).
      destruct (Z.eq_dec k a) as [->|Hne]; [now left|].
      right. exists k. repeat split; ray_side a.
  - apply Z.eqb_neq in C.
    destruct (mul8 (cell b (x + dx * a) (y + dy * a)) sign <? 0) eqn:Mu.
    + apply Z.ltb_lt in Mu. simpl. split.
      * intros [<- | []]. exists a. repeat split; ray_side a.
      * intros (k & -> & Hk & Hin & Hc & Hl).
        destruct (Z.eq_dec k a) as [->|Hne]; [now left|].
        exfalso. apply C, Hc. lia.
    + apply Z.ltb_ge in Mu. split; [intros []|].
      intros (k & -> & Hk & Hin & Hc & Hl).
      destruct (Z.eq_dec k a) as [->|Hne].
      * destruct Hl; [contradiction | lia].
      * apply C, Hc. lia.
Qed.

Lemma cannon_scan_jumped_zseq (n : nat) :
  forall a m,
    In m (cannon_scan b x y sign dx dy (zseq a n) true) <->
    exists k, m = (x, y, x + dx * k, y + dy * k) /\
              a <= k < a + Z.of_nat n /\
              (forall j, a <= j <= k ->
                         in_bounds (x + dx * j) (y + dy * j) = true) /\
              (forall j, a <= j < k ->
                         cell b (x + dx * j) (y + dy * j) = 0) /\
              cell b (x + dx * k) (y + dy * k) <> 0 /\
              mul8 (cell b (x + dx * k) (y + dy * k)) sign < 0.
Proof.
  induction n as [|n IH]; intros a m; simpl.
  { split; [tauto | intros (k & _ & H & _); lia]. }
  destruct (in_bounds (x + dx * a) (y + dy * a)) eqn:E; simpl.
  2:{ split; [tauto|]. intros (k & _ & Hk & Hin & _).
      specialize (Hin a ltac:(lia)). congruence. }
  destruct (cell b (x + dx * a) (y + dy * a) =? 0) eqn:C; simpl.
  - apply Z.eqb_eq in C. rewrite IH. split.
    + intros (k & -> & Hk & Hin & Hc & Hnz & Hl).
      exists k. repeat split; ray_side a.
    + intros (k & -> & Hk & Hin & Hc & Hnz & Hl).
      destruct (Z.eq_dec k a) as [->|Hne]; [contradiction|].
      exists k. repeat split; ray_side a.
  - apply Z.eqb_neq in C.
    destruct (mul8 (cell b (x + dx * a) (y + dy * a)) sign <? 0) eqn:Mu.
    + apply Z.ltb_lt in Mu. simpl. split.
      * intros [<- | []]. exists a. repeat split; ray_side a.
      * intros (k & -> & Hk & Hin & Hc & Hl).
        destruct (Z.eq_dec k a) as [->|Hne]; [now left|].
        exfalso. apply C, Hc. lia.
    + apply Z.ltb_ge in Mu. split; [intros []|].
      intros (k & -> & Hk & Hin & Hc & Hnz & Hl).
      destruct (Z.eq_dec k a) as [->|Hne]; [lia|].
      apply C, Hc. lia.
Qed.

Lemma cannon_scan_zseq (n : nat) :
  forall a m,
    In m (cannon_scan b x y sign dx dy (zseq a n) false) <->
    exists k, m = (x, y, x + dx * k, y + dy * k) /\
              a <= k < a + Z.of_nat n /\
              (forall j, a <= j <= k ->
                         in_bounds (x + dx * j) (y + dy * j) = true) /\
              ((forall j, a <= j <= k ->
                          cell b (x + dx * j) (y + dy * j) = 0) \/
               (exists i,
                   a <= i < k /\
                   cell b (x + dx * i) (y + dy * i) <> 0 /\
                   (forall j, a <= j < k -> j <> i ->
                              cell b (x + dx * j) (y + dy * j) = 0) /\
                   cell b (x + dx * k) (y + dy * k) <> 0 /\
                   mul8 (cell b (x + dx * k) (y + dy * k)) sign < 0)).
Proof.
  induction n as [|n IH]; intros a m.
  { simpl. split; [tauto | intros (k & _ & H & _); lia]. }
  cbn [zseq cannon_scan].
  destruct (in_bounds (x + dx * a) (y + dy * a)) eqn:E; cbn [negb].
  2:{ split; [intros []|]. intros (k & _ & Hk & Hin & _).
      specialize (Hin a ltac:(lia)). congruence. }
  destruct (cell b (x + dx * a) (y + dy * a) =? 0) eqn:C.
  - apply Z.eqb_eq in C. simpl. rewrite IH. split.
    + intros [<- | (k & -> & Hk & Hin & Hl)].
      * exists a. repeat split; ray_side a.
      * exists k. split; [reflexivity|]. split; [lia|]. split; [ray_side a|].
        destruct Hl as [Hz | (i & Hi & Hnz & Hc & Hl)].
        -- left. ray_side a.
        -- right. exists i. repeat split; ray_side a.
    + intros (k & -> & Hk & Hin & Hl).
      destruct (Z.eq_dec k a) as [->|Hne]; [now left|].
      right. exists k. split; [reflexivity|]. split; [lia|]. split; [ray_side a|].
      destruct Hl as [Hz | (i & Hi & Hnz & Hc & Hl)].
      * left. ray_side a.
      * right. exists i.
        assert (i <> a) by (intros ->; contradiction).
        repeat split; ray_side a.
  - apply Z.eqb_neq in C. rewrite cannon_scan_jumped_zseq. split.
    + intros (k & -> & Hk & Hin & Hc & Hnz & Hl).
      exists k. split; [reflexivity|]. split; [lia|]. split; [ray_side a|].
      right. exists a. repeat split; ray_side a.
    + intros (k & -> & Hk & Hin & Hl).
      destruct Hl as [Hz | (i & Hi & Hnz & Hc & Hknz & Hl)].
      { exfalso. apply C, Hz. lia. }
      assert (i = a) as ->.
      { destruct (Z.eq_dec i a); [assumption|].
        exfalso. apply C, Hc; lia. }
      exists k. repeat split; ray_side a.
Qed.

End Rays.

(** ** Where generated moves start and land *)

Lemma palace_dest_lands b x y sign d m :
  In m (palace_dest b x y sign d) -> lands b sign x y m.
Proof.
  unfold palace_dest.
  destruct (is_in_palace _ _ sign) eqn:P; simpl; [|tauto].
  destruct (mul8 _ sign <=? 0) eqn:T; simpl; [|tauto].
  intros [<- | []]. eexists _, _. split; [reflexivity|].
  split; [now apply is_in_palace_bounds in P | lia].
Qed.

Lemma block_dest_lands b x y sign d m :
  in_bounds (x + fst d) (y + snd d) = true ->
  In m (block_dest b x y sign d) -> lands b sign x y m.
Proof.
  intros Hb. unfold block_dest.
  destruct (in_bounds (x + floordiv2 _) _); simpl; [|tauto].
  destruct (cell b (x + floordiv2 _) _ =? 0); simpl; [|tauto].
  destruct (mul8 _ sign <=? 0) eqn:T; simpl; [|tauto].
  intros [<- | []]. eexists _, _. split; [reflexivity|]. split; [exact Hb | lia].
Qed.

Lemma elephant_dest_lands b x y sign d m :
  In m (elephant_dest b x y sign d) -> lands b sign x y m.
Proof.
  unfold elephant_dest.
  destruct (in_bounds (x + fst d) (y + snd d)) eqn:Hb; simpl; [|tauto].
  destruct (is_in_territory _ sign); [|simpl; tauto].
  now apply block_dest_lands.
Qed.

Lemma horse_dest_lands b x y sign d m :
  In m (horse_dest b x y sign d) -> lands b sign x y m.
Proof.
  unfold horse_dest.
  destruct (in_bounds (x + fst d) (y + snd d)) eqn:Hb; [|simpl; tauto].
  now apply block_dest_lands.
Qed.

Lemma soldier_dest_lands b x y sign d m :
  In m (soldier_dest b x y sign d) -> lands b sign x y m.
Proof.
  unfold soldier_dest.
  destruct (in_bounds (x + fst d) (y + snd d)) eqn:Hb; simpl; [|tauto].
  destruct (mul8 _ sign <=? 0) eqn:T; simpl; [|tauto].
  intros [<- | []]. eexists _, _. split; [reflexivity|]. split; [exact Hb | lia].
Qed.

Lemma chariot_scan_lands b x y sign dx dy lo n m :
  In m (chariot_scan b x y sign dx dy (zseq lo n)) -> lands b sign x y m.
Proof.
  rewrite chariot_scan_zseq. intros (k & -> & Hk & Hin & _ & Hl).
  eexists _, _. split; [reflexivity|]. split; [apply Hin; lia|].
  destruct Hl as [-> | Hl]; [rewrite mul8_zero|]; lia.
Qed.

Lemma cannon_scan_lands b x y sign dx dy lo n m :
  In m (cannon_scan b x y sign dx dy (zseq lo n) false) -> lands b sign x y m.
Proof.
  rewrite cannon_scan_zseq. intros (k & -> & Hk & Hin & Hl).
  eexists _, _. split; [reflexivity|]. split; [apply Hin; lia|].
  destruct Hl as [Hz | (i & _ & _ & _ & _ & Hl)]; [|lia].
  rewrite Hz by lia. rewrite mul8_zero. lia.
Qed.

Lemma piece_dests_lands b x y piece_type sign m :
  In m (piece_dests b x y piece_type sign) -> lands b sign x y m.
Proof.
  unfold piece_dests.
  repeat match goal with |- context [if ?c then _ else _] => destruct c end;
    try (simpl; tauto);
    rewrite in_flat_map; intros (d & _ & H);
    eauto using palace_dest_lands, elephant_dest_lands, horse_dest_lands,
      soldier_dest_lands, chariot_scan_lands, cannon_scan_lands.
Qed.

Lemma legal_dests_In b sign m :
  In m (legal_dests b sign) <->
  exists i j, in_bounds i j = true /\ 0 < mul8 (cell b i j) sign /\
              In m (piece_dests b i j (abs8 (cell b i j)) sign).
Proof.
  unfold legal_dests. rewrite in_flat_map. split.
  - intros (i & Hi & H). rewrite in_flat_map in H. destruct H as (j & Hj & H).
    apply in_range in Hi, Hj.
    destruct (0 <? mul8 (cell b i j) sign) eqn:O; [|contradiction].
    exists i, j. split; [apply in_bounds_iff; lia|]. split; [lia | exact H].
  - intros (i & j & Hb & O & H). apply in_bounds_iff in Hb.
    exists i. split; [apply in_range; lia|].
    rewrite in_flat_map. exists j. split; [apply in_range; lia|].
    destruct (0 <? mul8 (cell b i j) sign) eqn:O'; [exact H | lia].
Qed.

(** Every generated move starts on a cell the code took for an own piece and
    lands inside the grid on a cell it did not. *)
Lemma legal_dests_move b sign m :
  In m (legal_dests b sign) ->
  exists x1 y1 x2 y2,
    m = (x1, y1, x2, y2) /\
    in_bounds x1 y1 = true /\ in_bounds x2 y2 = true /\
    0 < mul8 (cell b x1 y1) sign /\ mul8 (cell b x2 y2) sign <= 0.
Proof.
  rewrite legal_dests_In. intros (i & j & Hb & O & H).
  apply piece_dests_lands in H. destruct H as (nx & ny & -> & Hn & T).
  exists i, j, nx, ny. auto.
Qed.

(** ** Storing into the grid *)

Lemma shape_ok_iff b :
  shape_ok b = true <->
  length b = 10%nat /\ forall i row, b !! i = Some row -> length row = 9%nat.
Proof.
  split.
  - intros H. split; [now apply shape_ok_length|].
    intros i row. now apply shape_ok_row.
  - intros [Hl Hr]. unfold shape_ok. rewrite andb_true_iff, forallb_forall.
    split; [now apply Nat.eqb_eq|].
    intros r Hin. apply list_elem_of_In, list_elem_of_lookup in Hin.
    destruct Hin as [i Hi]. apply Nat.eqb_eq. eauto.
Qed.

Lemma shape_ok_put b x y v : shape_ok b = true -> shape_ok (put b x y v) = true.
Proof.
  intros Hs. unfold put. destruct (b !! Z.to_nat x) as [row|] eqn:Hrow; [|exact Hs].
  apply shape_ok_iff in Hs. destruct Hs as [Hl Hr]. apply shape_ok_iff. split.
  - now rewrite length_insert.
  - intros i r Hi. destruct (decide (i = Z.to_nat x)) as [->|Hne].
    + rewrite list_lookup_insert_eq in Hi by (eapply lookup_lt_Some; eauto).
      injection Hi as <-. rewrite length_insert. eauto.
    + rewrite list_lookup_insert_ne in Hi by congruence. eauto.
Qed.

Lemma np_setitem_put b x y v :
  shape_ok b = true -> in_bounds x y = true ->
  np_setitem b x y v = Some (put b x y v).
Proof.
  intros Hs Hb. destruct (shape_ok_lookup b x y Hs Hb) as (row & Hrow & Hv).
  apply in_bounds_iff in Hb. unfold np_setitem, put, ROWS, COLS.
  rewrite !np_index_in by lia. rewrite Hrow.
  apply lookup_lt_Some in Hv. destruct (decide _); [reflexivity | contradiction].
Qed.

Lemma cell_put b x y v x' y' :
  shape_ok b = true -> in_bounds x y = true -> in_bounds x' y' = true ->
  cell (put b x y v) x' y' = if (x =? x') && (y =? y') then v else cell b x' y'.
Proof.
  intros Hs Hb Hb'.
  destruct (shape_ok_lookup b x y Hs Hb) as (row & Hrow & Hv).
  apply in_bounds_iff in Hb, Hb'. unfold put, cell at 1. rewrite Hrow.
  pose proof (lookup_lt_Some _ _ _ Hrow) as Hlt.
  pose proof (lookup_lt_Some _ _ _ Hv) as Hlt'.
  destruct (x =? x') eqn:Ex; simpl.
  - apply Z.eqb_eq in Ex. subst x'. rewrite list_lookup_insert_eq by exact Hlt.
    destruct (y =? y') eqn:Ey.
    + apply Z.eqb_eq in Ey. subst y'. now rewrite list_lookup_insert_eq.
    + apply Z.eqb_neq in Ey. rewrite list_lookup_insert_ne by lia.
      unfold cell. now rewrite Hrow.
  - apply Z.eqb_neq in Ex. rewrite list_lookup_insert_ne by lia. reflexivity.
Qed.

Lemma cells_ok_put b x y v :
  cells_ok b = true -> -128 < v < 128 -> cells_ok (put b x y v) = true.
Proof.
  intros Hc Hv. unfold put.
  destruct (b !! Z.to_nat x) as [row|] eqn:Hrow; [|exact Hc].
  unfold cells_ok in *. rewrite forallb_forall in *.
  intros r Hin. apply list_elem_of_In, list_elem_of_lookup in Hin.
  destruct Hin as [i Hi].
  assert (Hrow_ok : forallb (fun v0 => (-128 <? v0) && (v0 <? 128)) row = true).
  { apply Hc, list_elem_of_In, list_elem_of_lookup. eauto. }
  destruct (decide (i = Z.to_nat x)) as [->|Hne].
  - rewrite list_lookup_insert_eq in Hi by (eapply lookup_lt_Some; eauto).
    injection Hi as <-. rewrite forallb_forall in *.
    intros c Hc'. apply list_elem_of_In, list_elem_of_lookup in Hc'.
    destruct Hc' as [j Hj].
    destruct (decide (j = Z.to_nat y)) as [->|Hne].
    + destruct (decide (Z.to_nat y < length row)%nat).
      * rewrite list_lookup_insert_eq in Hj by assumption.
        injection Hj as <-. apply andb_true_iff. lia.
      * rewrite list_insert_ge in Hj by lia.
        apply Hrow_ok, list_elem_of_In, list_elem_of_lookup. eauto.
    + rewrite list_lookup_insert_ne in Hj by congruence.
      apply Hrow_ok, list_elem_of_In, list_elem_of_lookup. eauto.
  - rewrite list_lookup_insert_ne in Hi by congruence.
    apply Hc, list_elem_of_In, list_elem_of_lookup. eauto.
Qed.

(** ** Counting pieces *)

Lemma count_row_insert w v (r : list Z) :
  forall j c, r !! j = Some c ->
    (count_row w (<[j := v]> r) + (if Z.eqb c w then 1 else 0)
     = count_row w r + (if Z.eqb v w then 1 else 0))%nat.
Proof.
  induction r as [|a r IH]; intros j c Hj; [discriminate|].
  destruct j as [|j]; simpl in *.
  - injection Hj as ->. lia.
  - specialize (IH j c Hj). lia.
Qed.

Lemma count_cells_insert w (b : list (list Z)) :
  forall i row row', b !! i = Some row ->
    (count_cells w (<[i := row']> b) + count_row w row
     = count_cells w b + count_row w row')%nat.
Proof.
  induction b as [|a b IH]; intros i row row' Hi; [discriminate|].
  destruct i as [|i]; simpl in *.
  - injection Hi as ->. lia.
  - specialize (IH i row row' Hi). lia.
Qed.

Lemma count_put w b x y v :
  shape_ok b = true -> in_bounds x y = true ->
  (count_cells w (put b x y v) + (if Z.eqb (cell b x y) w then 1 else 0)
   = count_cells w b + (if Z.eqb v w then 1 else 0))%nat.
Proof.
  intros Hs Hb. destruct (shape_ok_lookup b x y Hs Hb) as (row & Hrow & Hv).
  unfold put. rewrite Hrow.
  pose proof (count_cells_insert w b _ row (<[Z.to_nat y := v]> row) Hrow).
  pose proof (count_row_insert w v row _ _ Hv). lia.
Qed.

Lemma existsb_count_row v r :
  existsb (Z.eqb v) r = true <-> (0 < count_row v r)%nat.
Proof.
  induction r as [|c r IH]; simpl; [split; [discriminate | lia]|].
  rewrite orb_true_iff, IH, (Z.eqb_sym v c).
  destruct (c =? v); simpl; split;
    [ intros [?|?]; try discriminate; lia | intros; now left
    | intros [?|?]; try discriminate; lia | intros; right; lia ].
Qed.

Lemma board_has_count b v : board_has b v = true <-> (0 < count_cells v b)%nat.
Proof.
  unfold board_has. induction b as [|r b IH]; simpl; [split; [discriminate | lia]|].
  rewrite orb_true_iff, IH, existsb_count_row. lia.
Qed.

Lemma board_has_false b v : board_has b v = false <-> count_cells v b = 0%nat.
Proof.
  destruct (board_has b v) eqn:E.
  - apply board_has_count in E. split; [discriminate | lia].
  - split; [intros _ | reflexivity].
    destruct (count_cells v b) eqn:C; [reflexivity|].
    assert (board_has b v = true) by (apply board_has_count; lia). congruence.
Qed.

(** The count of a piece code after a move: the moving piece keeps its
    place in the count, the piece on the destination leaves it. *)
Lemma count_moved_board w b x1 y1 x2 y2 :
  w <> 0 -> shape_ok b = true ->
  in_bounds x1 y1 = true -> in_bounds x2 y2 = true ->
  (count_cells w (moved_board b (x1, y1, x2, y2))
   + (if Z.eqb (cell b x2 y2) w then 1 else 0) = count_cells w b)%nat.
Proof.
  intros Hw Hs H1 H2. unfold moved_board.
  pose proof (count_put w b x2 y2 (cell b x1 y1) Hs H2) as Ha.
  pose proof (count_put w (put b x2 y2 (cell b x1 y1)) x1 y1 0
                (shape_ok_put _ _ _ _ Hs) H1) as Hb.
  rewrite (cell_put b x2 y2 _ x1 y1 Hs H2 H1) in Hb.
  assert (Hsame : (if (x2 =? x1) && (y2 =? y1) then cell b x1 y1 else cell b x1 y1)
                  = cell b x1 y1) by now destruct ((x2 =? x1) && (y2 =? y1)).
  rewrite Hsame in Hb.
  assert (H0 : (0 =? w) = false) by (apply Z.eqb_neq; congruence).
  rewrite H0 in Hb. lia.
Qed.

(** ** Running [make_move] *)

Lemma move_eqb_eq a b : move_eqb a b = true <-> a = b.
Proof.
  destruct a as [[[a1 a2] a3] a4], b as [[[b1 b2] b3] b4]. unfold move_eqb.
  rewrite !andb_true_iff, !Z.eqb_eq. split.
  - intros [[[-> ->] ->] ->]. reflexivity.
  - intros H. injection H as -> -> -> ->. auto.
Qed.

Lemma move_in_In m ms : move_in m ms = true <-> In m ms.
Proof.
  unfold move_in. rewrite existsb_exists. split.
  - intros (x & Hin & Heq). apply move_eqb_eq in Heq. now subst.
  - intros Hin. exists m. split; [exact Hin | now apply move_eqb_eq].
Qed.

Lemma make_move_over getitem mv s :
  game_over s = true -> make_move getitem mv s = Some (false, s).
Proof.
  intros H. unfold make_move, bind, get_game_over. now rewrite H.
Qed.

Section MakeMove.

Variable getitem : list (list Z) -> Z -> Z -> option Z.
Hypothesis getitem_ok : reads_grid getitem.
Variable s : ChineseChess.
Hypothesis shape : shape_ok (board s) = true.
Hypothesis playing : game_over s = false.

Lemma make_move_illegal mv :
  ~ In mv (legal_dests (board s) (sign_of (current_player s))) ->
  make_move getitem mv s = Some (false, s).
Proof.
  intros H. destruct mv as [[[x1 y1] x2] y2].
  unfold make_move, bind, get_game_over, get_current_player. rewrite playing.
  rewrite (get_legal_moves_run getitem getitem_ok s shape).
  destruct (move_in _ _) eqn:E; [|reflexivity].
  apply move_in_In in E. contradiction.
Qed.

Lemma make_move_legal mv :
  In mv (legal_dests (board s) (sign_of (current_player s))) ->
  make_move getitem mv s = Some (true, after_move s mv).
Proof.
  intros H. pose proof (legal_dests_move _ _ _ H) as Hm.
  destruct Hm as (x1 & y1 & x2 & y2 & -> & H1 & H2 & _).
  unfold make_move, bind, get_game_over, get_current_player. rewrite playing.
  rewrite (get_legal_moves_run getitem getitem_ok s shape).
  apply move_in_In in H. rewrite H. change (negb true) with false. cbv beta iota.
  rewrite (board_at_run getitem getitem_ok s shape) by assumption. cbv beta iota.
  rewrite (board_at_run getitem getitem_ok s shape) by assumption. cbv beta iota.
  unfold board_store at 1. rewrite (np_setitem_put _ _ _ _ shape H2).
  unfold set_board at 1. cbv beta iota. unfold board_store. cbn [board].
  rewrite (np_setitem_put _ _ _ _ (shape_ok_put _ _ _ _ shape) H1).
  unfold set_board, append_history, set_current_player, check_game_over,
    bind, get_board, set_game_over, set_winner, ret, after_move, moved_board.
  cbn [board current_player game_over winner move_history board_hash].
  destruct (board_has _ 1); cbn [negb]; [|reflexivity].
  destruct (board_has _ (-1)); reflexivity.
Qed.

Lemma make_move_cases mv r s' :
  make_move getitem mv s = Some (r, s') ->
  (r = false /\ s' = s /\
   ~ In mv (legal_dests (board s) (sign_of (current_player s)))) \/
  (r = true /\ s' = after_move s mv /\
   In mv (legal_dests (board s) (sign_of (current_player s)))).
Proof.
  intros H.
  destruct (in_dec (fun a b => decide (a = b)) mv
              (legal_dests (board s) (sign_of (current_player s)))) as [Hin|Hout].
  - rewrite (make_move_legal mv Hin) in H. injection H as <- <-. now right.
  - rewrite (make_move_illegal mv Hout) in H. injection H as <- <-. now left.
Qed.

End MakeMove.

(** * The engine's properties *)

(** ** A new game *)

(** C7. A newly constructed game has the canonical starting layout: row 9
    holds 5,4,3,2,1,2,3,4,5, Red Cannons (6) stand at (7,1) and (7,7), Red
    Soldiers (7) on row 6 at columns 0,2,4,6,8, Black is the mirror image on
    rows 0, 2, 3 with the values negated, every other cell is zero; Red is to
    move, the game is not over, there is no winner and the history is
    empty. *)
Theorem new_game_layout :
  exists s,
    new_game = Some s /\
    board s =
      [ [-5; -4; -3; -2; -1; -2; -3; -4; -5];
        [ 0;  0;  0;  0;  0;  0;  0;  0;  0];
        [ 0; -6;  0;  0;  0;  0;  0; -6;  0];
        [-7;  0; -7;  0; -7;  0; -7;  0; -7];
        [ 0;  0;  0;  0;  0;  0;  0;  0;  0];
        [ 0;  0;  0;  0;  0;  0;  0;  0;  0];
        [ 7;  0;  7;  0;  7;  0;  7;  0;  7];
        [ 0;  6;  0;  0;  0;  0;  0;  6;  0];
        [ 0;  0;  0;  0;  0;  0;  0;  0;  0];
        [ 5;  4;  3;  2;  1;  2;  3;  4;  5] ] /\
    current_player s = Red /\ game_over s = false /\ winner s = None /\
    move_history s = [] /\
    (forall x y, in_bounds x y = true ->
                 np_getitem (board s) x y
                 = option_map Z.opp (np_getitem (board s) (9 - x) y)).
Proof.
  exists start. repeat split.
  intros x y Hb.
  assert (H : forallb (fun x => forallb (fun y =>
               match np_getitem (board start) x y,
                     np_getitem (board start) (9 - x) y with
               | Some a, Some c => a =? - c
               | _, _ => false
               end) (range 0 9)) (range 0 10) = true) by reflexivity.
  apply in_bounds_iff in Hb. rewrite forallb_forall in H.
  specialize (H x ltac:(apply in_range; lia)). rewrite forallb_forall in H.
  specialize (H y ltac:(apply in_range; lia)).
  destruct (np_getitem (board start) x y); [|discriminate].
  destruct (np_getitem (board start) (9 - x) y); [|discriminate].
  apply Z.eqb_eq in H. simpl. now subst.
Qed.

(** ** The move generator *)

(** C10. [get_legal_moves] is a query: whenever it returns, the object is
    the one it was called on (board, current player, game-over flag, winner
    and history unchanged), and so is it for [_get_piece_moves]; on a grid of
    shape (10, 9) it does return. *)
Theorem get_legal_moves_mutates_nothing (s : ChineseChess) (p : player) :
  (forall ms s', get_legal_moves np_getitem p s = Some (ms, s') -> s' = s) /\
  (forall x y piece_type sign ms s',
      get_piece_moves np_getitem x y piece_type sign s = Some (ms, s') ->
      s' = s) /\
  (shape_ok (board s) = true ->
   exists ms, get_legal_moves np_getitem p s = Some (ms, s)).
Proof.
  split; [|split].
  - intros ms s'. apply read_only_get_legal_moves.
  - intros x y piece_type sign ms s'. apply read_only_get_piece_moves.
  - intros Hs. eexists. now apply get_legal_moves_run, Hs; apply np_getitem_reads.
Qed.

Lemma get_legal_moves_mutates_nothing_witness :
  exists ms, get_legal_moves np_getitem Red start = Some (ms, start).
Proof.
  apply (proj2 (proj2 (get_legal_moves_mutates_nothing start Red))).
  reflexivity.
Defined.

(** C9. Every move [get_legal_moves] produces has its four coordinates on
    the board, and every board access made while generating is inside the
    grid: the generator returns the same list when every read outside
    [0 <= x < 10, 0 <= y < 9] is refused.  For Generals and Advisors the only
    guard before the read is the palace test, which implies the bounds. *)
Theorem get_legal_moves_in_bounds (s : ChineseChess) (p : player) :
  shape_ok (board s) = true ->
  exists ms,
    get_legal_moves np_getitem p s = Some (ms, s) /\
    get_legal_moves checked_getitem p s = Some (ms, s) /\
    (forall x1 y1 x2 y2, In (x1, y1, x2, y2) ms ->
       (0 <= x1 < 10 /\ 0 <= y1 < 9) /\ (0 <= x2 < 10 /\ 0 <= y2 < 9)) /\
    (forall x y sign, is_in_palace x y sign = true -> 0 <= x < 10 /\ 0 <= y < 9).
Proof.
  intros Hs. exists (legal_dests (board s) (sign_of p)).
  split; [now apply get_legal_moves_run; [apply np_getitem_reads|]|].
  split; [now apply get_legal_moves_run; [apply checked_getitem_reads|]|].
  split.
  - intros x1 y1 x2 y2 H. apply legal_dests_move in H.
    destruct H as (a1 & b1 & a2 & b2 & E & H1 & H2 & _).
    injection E as -> -> -> ->. now rewrite <- !in_bounds_iff.
  - intros x y sign H. apply is_in_palace_bounds in H. now apply in_bounds_iff.
Qed.

Lemma get_legal_moves_in_bounds_witness :
  exists ms,
    get_legal_moves np_getitem Black start = Some (ms, start) /\
    get_legal_moves checked_getitem Black start = Some (ms, start) /\
    (forall x1 y1 x2 y2, In (x1, y1, x2, y2) ms ->
       (0 <= x1 < 10 /\ 0 <= y1 < 9) /\ (0 <= x2 < 10 /\ 0 <= y2 < 9)) /\
    (forall x y sign, is_in_palace x y sign = true -> 0 <= x < 10 /\ 0 <= y < 9).
Proof. apply (get_legal_moves_in_bounds start Black). reflexivity. Defined.

(** C5. The list [get_legal_moves] returns for a side never contains a move
    whose destination cell holds a piece of that side. *)
Theorem get_legal_moves_spare_own (s : ChineseChess) (p : player) :
  wf_board (board s) = true ->
  exists ms,
    get_legal_moves np_getitem p s = Some (ms, s) /\
    forall x1 y1 x2 y2, In (x1, y1, x2, y2) ms ->
      exists v, np_getitem (board s) x2 y2 = Some v /\
                ~ own_piece v (sign_of p).
Proof.
  intros Hwf. pose proof (wf_board_shape _ Hwf) as Hs.
  exists (legal_dests (board s) (sign_of p)).
  split; [now apply get_legal_moves_run; [apply np_getitem_reads|]|].
  intros x1 y1 x2 y2 H. apply legal_dests_move in H.
  destruct H as (a1 & b1 & a2 & b2 & E & _ & H2 & _ & Hfree).
  injection E as -> -> -> ->.
  exists (cell (board s) a2 b2). split; [now apply np_getitem_reads|].
  rewrite mul8_sign in Hfree
    by (auto using cells_ok_cell, wf_board_cells, sign_of_cases).
  unfold own_piece. lia.
Qed.

Lemma get_legal_moves_spare_own_witness :
  exists ms,
    get_legal_moves np_getitem Red start = Some (ms, start) /\
    forall x1 y1 x2 y2, In (x1, y1, x2, y2) ms ->
      exists v, np_getitem (board start) x2 y2 = Some v /\
                ~ own_piece v (sign_of Red).
Proof. apply (get_legal_moves_spare_own start Red). reflexivity. Defined.

(** ** Applying a move *)

(** C2. [make_move] returns False and leaves the whole object as it was when
    the game is already over or the move is not in the current side's
    legal-move list; whenever it returns False the object is unchanged, so it
    mutates only on the path that returns True. *)
Theorem make_move_refuses (s : ChineseChess) (mv : move) :
  shape_ok (board s) = true ->
  exists legal,
    get_legal_moves np_getitem (current_player s) s = Some (legal, s) /\
    (game_over s = true \/ ~ In mv legal ->
     make_move np_getitem mv s = Some (false, s)) /\
    (forall r s', make_move np_getitem mv s = Some (r, s') ->
       (r = false /\ s' = s) \/
       (r = true /\ game_over s = false /\ In mv legal)).
Proof.
  intros Hs. exists (legal_dests (board s) (sign_of (current_player s))).
  split; [now apply get_legal_moves_run; [apply np_getitem_reads|]|].
  destruct (game_over s) eqn:Hover.
  - split.
    + intros _. now apply make_move_over.
    + intros r s' H. rewrite make_move_over in H by exact Hover.
      injection H as <- <-. now left.
  - split.
    + intros [H|H]; [discriminate|].
      now apply make_move_illegal; [apply np_getitem_reads| | |].
    + intros r s' H.
      apply (make_move_cases _ np_getitem_reads s Hs Hover) in H.
      destruct H as [(-> & -> & _) | (-> & _ & Hin)]; [now left | now right].
Qed.

Lemma make_move_refuses_witness :
  exists legal,
    get_legal_moves np_getitem (current_player start) start
    = Some (legal, start) /\
    (game_over start = true \/ ~ In (9, 0, 9, 1) legal ->
     make_move np_getitem (9, 0, 9, 1) start = Some (false, start)) /\
    (forall r s', make_move np_getitem (9, 0, 9, 1) start = Some (r, s') ->
       (r = false /\ s' = start) \/
       (r = true /\ game_over start = false /\ In (9, 0, 9, 1) legal)).
Proof. apply (make_move_refuses start (9, 0, 9, 1)). reflexivity. Defined.

(** ** Generals *)

Lemma board_after_move s mv : board (after_move s mv) = moved_board (board s) mv.
Proof.
  destruct mv as [[[x1 y1] x2] y2]. unfold after_move.
  destruct (negb (board_has _ 1)); [reflexivity|].
  destruct (negb (board_has _ (-1))); reflexivity.
Qed.

Lemma shape_ok_moved_board b mv :
  shape_ok b = true -> shape_ok (moved_board b mv) = true.
Proof.
  destruct mv as [[[x1 y1] x2] y2]. intros H. unfold moved_board.
  now apply shape_ok_put, shape_ok_put.
Qed.

Lemma wf_board_moved_board b mv :
  wf_board b = true -> wf_board (moved_board b mv) = true.
Proof.
  intros H. pose proof (wf_board_shape _ H) as Hs.
  pose proof (wf_board_cells _ H) as Hc.
  unfold wf_board. rewrite (shape_ok_moved_board b mv Hs).
  destruct mv as [[[x1 y1] x2] y2]. unfold moved_board. simpl.
  apply cells_ok_put; [|lia]. apply cells_ok_put; [exact Hc|].
  now apply cells_ok_cell.
Qed.

(** What [make_move] does to the number of cells holding a piece code. *)
Lemma make_move_count s mv r s' :
  shape_ok (board s) = true ->
  make_move np_getitem mv s = Some (r, s') ->
  shape_ok (board s') = true /\
  forall v, v <> 0 -> (count_cells v (board s') <= count_cells v (board s))%nat.
Proof.
  intros Hs H. destruct (game_over s) eqn:Hover.
  - rewrite make_move_over in H by exact Hover. injection H as <- <-. auto.
  - apply (make_move_cases _ np_getitem_reads s Hs Hover) in H.
    destruct H as [(-> & -> & _) | (-> & -> & Hin)]; [auto|].
    rewrite board_after_move. split; [now apply shape_ok_moved_board|].
    intros v Hv. apply legal_dests_move in Hin.
    destruct Hin as (x1 & y1 & x2 & y2 & -> & H1 & H2 & _).
    pose proof (count_moved_board v (board s) x1 y1 x2 y2 Hv Hs H1 H2). lia.
Qed.

Lemma new_game_start : new_game = Some start.
Proof. reflexivity. Qed.

Lemma reachable_shape s : reachable s -> shape_ok (board s) = true.
Proof.
  induction 1 as [s H | s mv r s' _ IH H].
  - rewrite new_game_start in H. injection H as <-. reflexivity.
  - now apply (make_move_count s mv r s').
Qed.

(** C8. Every state reachable from a new game by [make_move] calls has at
    most one Red General (cell value 1) and at most one Black General (cell
    value -1); [make_move] never raises the number of cells holding a given
    piece code, since it relocates one piece over its destination. *)
Theorem at_most_one_general :
  (forall s, reachable s ->
     (count_cells 1 (board s) <= 1)%nat /\
     (count_cells (-1) (board s) <= 1)%nat) /\
  (forall s mv r s',
     shape_ok (board s) = true ->
     make_move np_getitem mv s = Some (r, s') ->
     forall v, v <> 0 ->
       (count_cells v (board s') <= count_cells v (board s))%nat).
Proof.
  split.
  - induction 1 as [s H | s mv r s' Hr IH H].
    + rewrite new_game_start in H. injection H as <-. simpl. lia.
    + pose proof (make_move_count s mv r s' (reachable_shape s Hr) H) as [_ Hc].
      pose proof (Hc 1 ltac:(lia)). pose proof (Hc (-1) ltac:(lia)). lia.
  - intros s mv r s' Hs H. now apply (make_move_count s mv r s').
Qed.

Lemma at_most_one_general_witness :
  (count_cells 1 (board start) <= 1)%nat /\
  (count_cells (-1) (board start) <= 1)%nat.
Proof.
  apply (proj1 at_most_one_general start).
  apply reachable_new. reflexivity.
Defined.

(** A legal move of a side never lands on that side's General. *)
Lemma mover_general_stays s mv :
  wf_board (board s) = true ->
  In mv (legal_dests (board s) (sign_of (current_player s))) ->
  count_cells (general_of (current_player s)) (board (after_move s mv))
  = count_cells (general_of (current_player s)) (board s).
Proof.
  intros Hwf Hin. pose proof (wf_board_shape _ Hwf) as Hs.
  apply legal_dests_move in Hin.
  destruct Hin as (x1 & y1 & x2 & y2 & -> & H1 & H2 & _ & Hfree).
  rewrite board_after_move. unfold general_of.
  assert (Hg : sign_of (current_player s) <> 0)
    by (destruct (sign_of_cases (current_player s)); lia).
  pose proof (count_moved_board _ (board s) x1 y1 x2 y2 Hg Hs H1 H2) as Hc.
  destruct (cell (board s) x2 y2 =? sign_of (current_player s)) eqn:E; [|lia].
  apply Z.eqb_eq in E. rewrite E in Hfree. exfalso.
  destruct (sign_of_cases (current_player s)) as [Hp|Hp]; rewrite Hp in Hfree;
    vm_compute in Hfree; congruence.
Qed.

(** The flag and the winner [_check_game_over] leaves after a legal move
    from a consistent state. *)
Lemma legal_move_outcome s mv :
  consistent s -> game_over s = false ->
  In mv (legal_dests (board s) (sign_of (current_player s))) ->
  (game_over (after_move s mv) = true <->
     board_has (board (after_move s mv)) 1 = false \/
     board_has (board (after_move s mv)) (-1) = false) /\
  (game_over (after_move s mv) = true ->
     winner (after_move s mv) = Some (current_player s) /\
     board_has (board (after_move s mv)) (general_of (current_player s)) = true /\
     board_has (board (after_move s mv))
               (general_of (other (current_player s))) = false) /\
  consistent (after_move s mv).
Proof.
  intros [Hwf Hgen] Hover Hin. destruct (Hgen Hover) as [Hred Hblack].
  pose proof (mover_general_stays s mv Hwf Hin) as Hstay.
  assert (Hmine : board_has (board (after_move s mv))
                            (general_of (current_player s)) = true).
  { apply board_has_count. rewrite Hstay.
    destruct (current_player s); now apply board_has_count. }
  pose proof (wf_board_moved_board _ mv Hwf) as Hwf'.
  rewrite <- board_after_move in Hwf'.
  revert Hmine Hwf'. rewrite !board_after_move.
  destruct mv as [[[x1 y1] x2] y2]. unfold after_move.
  set (b' := moved_board (board s) (x1, y1, x2, y2)).
  intros Hmine Hwf'. unfold consistent.
  destruct (current_player s);
    cbn [general_of sign_of player_eqb other] in *;
    destruct (board_has b' 1) eqn:R; destruct (board_has b' (-1)) eqn:B;
    cbn [negb board game_over winner]; rewrite ?R, ?B, ?Hover;
    try discriminate;
    (split; [split; [auto | intros [?|?]; congruence] |]);
    (split; [intros ?; try discriminate; auto |]);
    (split; [exact Hwf' | intros ?; try discriminate; auto]).
Qed.

Lemma start_consistent : consistent start.
Proof. split; [reflexivity | intros _; split; reflexivity]. Qed.

Lemma make_move_consistent s mv r s' :
  consistent s -> make_move np_getitem mv s = Some (r, s') -> consistent s'.
Proof.
  intros Hc H. pose proof (wf_board_shape _ (proj1 Hc)) as Hs.
  destruct (game_over s) eqn:Hover.
  - rewrite make_move_over in H by exact Hover. injection H as <- <-. exact Hc.
  - apply (make_move_cases _ np_getitem_reads s Hs Hover) in H.
    destruct H as [(-> & -> & _) | (-> & -> & Hin)]; [exact Hc|].
    now apply legal_move_outcome.
Qed.

Lemma reachable_consistent s : reachable s -> consistent s.
Proof.
  induction 1 as [s H | s mv r s' _ IH H].
  - rewrite new_game_start in H. injection H as <-. exact start_consistent.
  - exact (make_move_consistent s mv r s' IH H).
Qed.

(** C6. After a successful [make_move] the state is terminal exactly when
    a General is missing from the board, the winner then being the side
    that moved, whose General remains while the other side's is gone; with
    both Generals on the board the flag stays clear.  This holds from every
    consistent state, and the states of a game are consistent
    ([reachable_consistent]). *)
Theorem make_move_terminal (s : ChineseChess) (mv : move) (s' : ChineseChess) :
  consistent s ->
  make_move np_getitem mv s = Some (true, s') ->
  (game_over s' = true <->
     board_has (board s') 1 = false \/ board_has (board s') (-1) = false) /\
  (game_over s' = true ->
     winner s' = Some (current_player s) /\
     board_has (board s') (general_of (current_player s)) = true /\
     board_has (board s') (general_of (other (current_player s))) = false) /\
  consistent s'.
Proof.
  intros Hc H. pose proof (wf_board_shape _ (proj1 Hc)) as Hs.
  destruct (game_over s) eqn:Hover.
  - rewrite make_move_over in H by exact Hover. discriminate.
  - apply (make_move_cases _ np_getitem_reads s Hs Hover) in H.
    destruct H as [(E & _) | (_ & -> & Hin)]; [discriminate|].
    now apply legal_move_outcome.
Qed.

Lemma make_move_terminal_witness :
  let s' := after_move start (7, 1, 0, 1) in
  (game_over s' = true <->
     board_has (board s') 1 = false \/ board_has (board s') (-1) = false) /\
  (game_over s' = true ->
     winner s' = Some (current_player start) /\
     board_has (board s') (general_of (current_player start)) = true /\
     board_has (board s') (general_of (other (current_player start))) = false) /\
  consistent s'.
Proof.
  apply (make_move_terminal start (7, 1, 0, 1)).
  - split; [reflexivity | intros _; split; reflexivity].
  - reflexivity.
Defined.

(** ** Rays of the Chariot and the Cannon *)

Lemma orthogonal_cases dx dy :
  In (dx, dy) orthogonal ->
  (dx = 0 /\ dy = 1) \/ (dx = 1 /\ dy = 0) \/
  (dx = 0 /\ dy = -1) \/ (dx = -1 /\ dy = 0).
Proof.
  unfold orthogonal. simpl.
  intros [H|[H|[H|[H|[]]]]]; injection H as <- <-; tauto.
Qed.

(** A destination lies on one ray only, at one step. *)
Lemma ray_unique x y dx dy k dx' dy' k' :
  In (dx, dy) orthogonal -> In (dx', dy') orthogonal -> 1 <= k -> 1 <= k' ->
  (x, y, x + dx' * k', y + dy' * k') = (x, y, x + dx * k, y + dy * k) ->
  dx' = dx /\ dy' = dy /\ k' = k.
Proof.
  intros Hd Hd' Hk Hk' E. injection E as Ex Ey.
  apply orthogonal_cases in Hd, Hd'.
  destruct Hd as [[-> ->]|[[-> ->]|[[-> ->]|[-> ->]]]];
    destruct Hd' as [[-> ->]|[[-> ->]|[[-> ->]|[-> ->]]]]; lia.
Qed.

(** Between a source and a destination inside the grid the ray stays
    inside, and the destination is within the nine steps the loop takes. *)
Lemma ray_within x y dx dy k :
  In (dx, dy) orthogonal -> in_bounds x y = true -> 1 <= k ->
  in_bounds (x + dx * k) (y + dy * k) = true ->
  k < 10 /\
  forall j, 1 <= j <= k -> in_bounds (x + dx * j) (y + dy * j) = true.
Proof.
  intros Hd Hb Hk Hk'. apply in_bounds_iff in Hb, Hk'.
  apply orthogonal_cases in Hd.
  destruct Hd as [[-> ->]|[[-> ->]|[[-> ->]|[-> ->]]]];
    (split; [lia | intros j Hj; apply in_bounds_iff; lia]).
Qed.

Lemma range_1_10 : range 1 10 = zseq 1 9.
Proof. reflexivity. Qed.

Lemma mul8_enemy b x y p :
  cells_ok b = true ->
  mul8 (cell b x y) (sign_of p) < 0 <-> enemy_piece (cell b x y) (sign_of p).
Proof.
  intros Hc. rewrite mul8_sign by auto using cells_ok_cell, sign_of_cases.
  reflexivity.
Qed.

(** C4. Along each of the four orthogonal rays from a chariot's square the
    generated destinations are exactly the empty cells up to the first
    occupied cell, plus that first occupied cell when it holds an enemy
    piece; nothing beyond the first occupied cell is generated, and every
    generated move lies on one of the four rays. *)
Theorem chariot_moves_rays (s : ChineseChess) (x y : Z) (p : player) :
  wf_board (board s) = true -> in_bounds x y = true ->
  exists ms,
    chariot_moves np_getitem x y (sign_of p) s = Some (ms, s) /\
    (forall m, In m ms ->
       exists dx dy k, In (dx, dy) orthogonal /\ 1 <= k /\
                       m = (x, y, x + dx * k, y + dy * k)) /\
    (forall dx dy k, In (dx, dy) orthogonal -> 1 <= k ->
       (In (x, y, x + dx * k, y + dy * k) ms <->
        in_bounds (x + dx * k) (y + dy * k) = true /\
        (forall j, 1 <= j < k ->
                   cell (board s) (x + dx * j) (y + dy * j) = 0) /\
        (cell (board s) (x + dx * k) (y + dy * k) = 0 \/
         enemy_piece (cell (board s) (x + dx * k) (y + dy * k)) (sign_of p)))).
Proof.
  intros Hwf Hb. pose proof (wf_board_shape _ Hwf) as Hs.
  pose proof (wf_board_cells _ Hwf) as Hc.
  eexists. split; [now apply chariot_moves_run; [apply np_getitem_reads|]|].
  rewrite range_1_10. split.
  - intros m Hm. apply in_flat_map in Hm. destruct Hm as ([dx dy] & Hd & Hm).
    apply chariot_scan_zseq in Hm. destruct Hm as (k & -> & Hk & _).
    exists dx, dy, k. auto with zarith.
  - intros dx dy k Hd Hk. rewrite in_flat_map. split.
    + intros ([dx' dy'] & Hd' & Hm). apply chariot_scan_zseq in Hm.
      destruct Hm as (k' & E & Hk' & Hin & Hempty & Hlast). simpl fst in *.
      simpl snd in *.
      destruct (ray_unique x y dx' dy' k' dx dy k Hd' Hd) as (-> & -> & ->);
        [lia | lia | exact E |].
      split; [apply Hin; lia|]. split; [intros j Hj; apply Hempty; lia|].
      destruct Hlast as [H0|Hneg]; [now left | right; now apply mul8_enemy].
    + intros (Hdest & Hempty & Hlast).
      destruct (ray_within x y dx dy k Hd Hb Hk Hdest) as [Hlt Hin].
      exists (dx, dy). split; [exact Hd|]. apply chariot_scan_zseq.
      exists k. simpl fst. simpl snd. split; [reflexivity|].
      split; [lia|]. split; [exact Hin|]. split; [intros j Hj; apply Hempty; lia|].
      destruct Hlast as [H0|Hneg]; [now left | right; now apply mul8_enemy].
Qed.

Lemma chariot_moves_rays_witness :
  exists ms,
    chariot_moves np_getitem 9 0 (sign_of Red) start = Some (ms, start) /\
    (forall m, In m ms ->
       exists dx dy k, In (dx, dy) orthogonal /\ 1 <= k /\
                       m = (9, 0, 9 + dx * k, 0 + dy * k)) /\
    (forall dx dy k, In (dx, dy) orthogonal -> 1 <= k ->
       (In (9, 0, 9 + dx * k, 0 + dy * k) ms <->
        in_bounds (9 + dx * k) (0 + dy * k) = true /\
        (forall j, 1 <= j < k ->
                   cell (board start) (9 + dx * j) (0 + dy * j) = 0) /\
        (cell (board start) (9 + dx * k) (0 + dy * k) = 0 \/
         enemy_piece (cell (board start) (9 + dx * k) (0 + dy * k))
                     (sign_of Red)))).
Proof. apply (chariot_moves_rays start 9 0 Red); reflexivity. Defined.

(** C3. Along each of the four orthogonal rays from a cannon's square: the
    empty cells before the first occupied cell (the screen) are generated
    as non-capturing destinations; the only other destination generated is
    the first occupied cell after the screen, and only when it holds an
    enemy piece, so a capture has exactly one piece between source and
    target; nothing beyond is generated, and every generated move lies on
    one of the four rays. *)
Theorem cannon_moves_rays (s : ChineseChess) (x y : Z) (p : player) :
  wf_board (board s) = true -> in_bounds x y = true ->
  exists ms,
    cannon_moves np_getitem x y (sign_of p) s = Some (ms, s) /\
    (forall m, In m ms ->
       exists dx dy k, In (dx, dy) orthogonal /\ 1 <= k /\
                       m = (x, y, x + dx * k, y + dy * k)) /\
    (forall dx dy k, In (dx, dy) orthogonal -> 1 <= k ->
       (In (x, y, x + dx * k, y + dy * k) ms <->
        in_bounds (x + dx * k) (y + dy * k) = true /\
        ((forall j, 1 <= j <= k ->
                    cell (board s) (x + dx * j) (y + dy * j) = 0) \/
         (exists i,
            1 <= i < k /\
            cell (board s) (x + dx * i) (y + dy * i) <> 0 /\
            (forall j, 1 <= j < k -> j <> i ->
                       cell (board s) (x + dx * j) (y + dy * j) = 0) /\
            enemy_piece (cell (board s) (x + dx * k) (y + dy * k))
                        (sign_of p))))).
Proof.
  intros Hwf Hb. pose proof (wf_board_shape _ Hwf) as Hs.
  pose proof (wf_board_cells _ Hwf) as Hc.
  eexists. split; [now apply cannon_moves_run; [apply np_getitem_reads|]|].
  rewrite range_1_10. split.
  - intros m Hm. apply in_flat_map in Hm. destruct Hm as ([dx dy] & Hd & Hm).
    apply cannon_scan_zseq in Hm. destruct Hm as (k & -> & Hk & _).
    exists dx, dy, k. auto with zarith.
  - intros dx dy k Hd Hk. rewrite in_flat_map. split.
    + intros ([dx' dy'] & Hd' & Hm). apply cannon_scan_zseq in Hm.
      destruct Hm as (k' & E & Hk' & Hin & Hcase). simpl fst in *.
      simpl snd in *.
      destruct (ray_unique x y dx' dy' k' dx dy k Hd' Hd) as (-> & -> & ->);
        [lia | lia | exact E |].
      split; [apply Hin; lia|].
      destruct Hcase as [Hempty | (i & Hi & Hscreen & Hempty & _ & Hneg)].
      * left. intros j Hj. apply Hempty. lia.
      * right. exists i. split; [lia|]. split; [exact Hscreen|].
        split; [intros j Hj Hji; apply Hempty; [lia | exact Hji]|].
        now apply mul8_enemy.
    + intros (Hdest & Hcase).
      destruct (ray_within x y dx dy k Hd Hb Hk Hdest) as [Hlt Hin].
      exists (dx, dy). split; [exact Hd|]. apply cannon_scan_zseq.
      exists k. simpl fst. simpl snd. split; [reflexivity|].
      split; [lia|]. split; [exact Hin|].
      destruct Hcase as [Hempty | (i & Hi & Hscreen & Hempty & Hneg)].
      * left. intros j Hj. apply Hempty. lia.
      * right. exists i. split; [lia|]. split; [exact Hscreen|].
        split; [intros j Hj Hji; apply Hempty; [lia | exact Hji]|].
        split; [|now apply mul8_enemy].
        intros H0. rewrite H0 in Hneg. unfold enemy_piece in Hneg. lia.
Qed.

Lemma cannon_moves_rays_witness :
  exists ms,
    cannon_moves np_getitem 7 1 (sign_of Red) start = Some (ms, start) /\
    (forall m, In m ms ->
       exists dx dy k, In (dx, dy) orthogonal /\ 1 <= k /\
                       m = (7, 1, 7 + dx * k, 1 + dy * k)) /\
    (forall dx dy k, In (dx, dy) orthogonal -> 1 <= k ->
       (In (7, 1, 7 + dx * k, 1 + dy * k) ms <->
        in_bounds (7 + dx * k) (1 + dy * k) = true /\
        ((forall j, 1 <= j <= k ->
                    cell (board start) (7 + dx * j) (1 + dy * j) = 0) \/
         (exists i,
            1 <= i < k /\
            cell (board start) (7 + dx * i) (1 + dy * i) <> 0 /\
            (forall j, 1 <= j < k -> j <> i ->
                       cell (board start) (7 + dx * j) (1 + dy * j) = 0) /\
            enemy_piece (cell (board start) (7 + dx * k) (1 + dy * k))
                        (sign_of Red))))).
Proof. apply (cannon_moves_rays start 7 1 Red); reflexivity. Defined.

(** ** The Horse's leg *)

(** What [_horse_moves] generates: the cell it tests before a jump by
    [(dx, dy)] is the source displaced by [(dx // 2, dy // 2)] with Python's
    floor division, so for an offset whose short component is -1 it is the
    diagonal neighbour and not the orthogonal one. *)
Lemma horse_moves_floor_leg (s : ChineseChess) (x y : Z) (p : player) :
  wf_board (board s) = true -> in_bounds x y = true ->
  exists ms,
    horse_moves np_getitem x y (sign_of p) s = Some (ms, s) /\
    forall dx dy, In (dx, dy) horse_directions ->
      (In (x, y, x + dx, y + dy) ms <->
       in_bounds (x + dx) (y + dy) = true /\
       cell (board s) (x + floordiv2 dx) (y + floordiv2 dy) = 0 /\
       ~ own_piece (cell (board s) (x + dx) (y + dy)) (sign_of p)).
Proof.
  intros Hwf Hb. pose proof (wf_board_shape _ Hwf) as Hs.
  pose proof (wf_board_cells _ Hwf) as Hc.
  eexists. split; [now apply horse_moves_run; [apply np_getitem_reads|]|].
  intros dx dy Hd. rewrite in_flat_map.
  assert (Hblock : in_bounds (x + dx) (y + dy) = true ->
                   in_bounds (x + floordiv2 dx) (y + floordiv2 dy) = true).
  { intros Hn. apply in_bounds_iff in Hb, Hn. apply in_bounds_iff.
    unfold horse_directions in Hd. simpl in Hd.
    repeat (destruct Hd as [Hd|Hd]; [injection Hd as <- <-; vm_compute floordiv2; lia|]).
    contradiction. }
  assert (Hone : forall d, In (x, y, x + dx, y + dy)
                              (horse_dest (board s) x y (sign_of p) d) <->
                 d = (dx, dy) /\
                 in_bounds (x + dx) (y + dy) = true /\
                 cell (board s) (x + floordiv2 dx) (y + floordiv2 dy) = 0 /\
                 mul8 (cell (board s) (x + dx) (y + dy)) (sign_of p) <= 0).
  { intros [dx' dy']. unfold horse_dest, block_dest. simpl fst. simpl snd.
    split.
    - destruct (in_bounds (x + dx') (y + dy')) eqn:Hn; [|intros []].
      destruct (in_bounds (x + floordiv2 dx') _) eqn:Hk; simpl; [|intros []].
      destruct (cell (board s) (x + floordiv2 dx') _ =? 0) eqn:Hz; simpl;
        [|intros []].
      destruct (mul8 _ (sign_of p) <=? 0) eqn:Hf; simpl; [|intros []].
      intros [E|[]]. injection E as Ex Ey.
      assert (dx' = dx) by lia. assert (dy' = dy) by lia. subst.
      apply Z.eqb_eq in Hz. repeat split; auto. lia.
    - intros (E & Hn & Hz & Hf). injection E as -> ->.
      rewrite Hn, (Hblock Hn), Hz. simpl.
      destruct (mul8 _ (sign_of p) <=? 0) eqn:Hf'; [now left | lia]. }
  pose proof (mul8_sign (cell (board s) (x + dx) (y + dy)) (sign_of p)
                (cells_ok_cell _ _ _ Hc) (sign_of_cases p)) as Hm.
  unfold own_piece. split.
  - intros (d & _ & H). apply Hone in H. destruct H as (_ & Hn & Hz & Hf).
    repeat split; auto; lia.
  - intros (Hn & Hz & Hf). exists (dx, dy). split; [exact Hd|].
    apply Hone. repeat split; auto; lia.
Qed.

(** C1 fails on the code.  In a new game Red's Horse stands on (9, 1); for
    the offset (-1, 2) the orthogonal leg cell, half the offset truncated
    toward zero, is (9, 2), which holds Red's Elephant; the destination
    (8, 3) is empty.  [_horse_moves] generates the move all the same: it
    tested (8, 2), the offset halved by floor division. *)
Theorem horse_jumps_over_occupied_leg :
  exists ms,
    horse_moves np_getitem 9 1 (sign_of Red) start = Some (ms, start) /\
    In (-1, 2) horse_directions /\
    np_getitem (board start) (9 + Z.quot (-1) 2) (1 + Z.quot 2 2) = Some 3 /\
    np_getitem (board start) (9 + -1) (1 + 2) = Some 0 /\
    In (9, 1, 9 + -1, 1 + 2) ms.
Proof.
  eexists. split; [reflexivity|]. vm_compute. tauto.
Qed.

(** The converse failure: with Red's Horse on (5, 4), the leg cell (5, 5) of
    the offset (-1, 2) empty and the destination (4, 6) empty, a piece on the
    diagonal cell (4, 5) suppresses the move. *)
Lemma horse_stopped_by_diagonal :
  exists b s ms,
    assign_all zeros [(5, 4, 4); (4, 5, 7)] = Some b /\
    s = MkChess b Red false None [] None /\
    horse_moves np_getitem 5 4 (sign_of Red) s = Some (ms, s) /\
    np_getitem b (5 + Z.quot (-1) 2) (4 + Z.quot 2 2) = Some 0 /\
    np_getitem b (5 + -1) (4 + 2) = Some 0 /\
    ~ In (5, 4, 5 + -1, 4 + 2) ms.
Proof.
  eexists _, _, _. split; [reflexivity|]. split; [reflexivity|].
  split; [reflexivity|]. vm_compute. intuition discriminate.
Qed.

(** * Further properties of the engine *)

(** ** One-step pieces *)

Lemma mul8_not_own b x y p :
  cells_ok b = true ->
  mul8 (cell b x y) (sign_of p) <= 0 <-> ~ own_piece (cell b x y) (sign_of p).
Proof.
  intros Hc. rewrite mul8_sign by auto using cells_ok_cell, sign_of_cases.
  unfold own_piece. lia.
Qed.

Lemma palace_dest_In b x y sign d m :
  In m (palace_dest b x y sign d) <->
  m = (x, y, x + fst d, y + snd d) /\
  is_in_palace (x + fst d) (y + snd d) sign = true /\
  mul8 (cell b (x + fst d) (y + snd d)) sign <= 0.
Proof.
  unfold palace_dest.
  destruct (is_in_palace _ _ sign) eqn:P; simpl.
  - destruct (mul8 _ sign <=? 0) eqn:T; simpl.
    + split; [intros [<-|[]]; repeat split; lia | intros (-> & _); now left].
    + split; [intros [] | intros (_ & _ & H); lia].
  - split; [intros [] | intros (_ & H & _); discriminate].
Qed.

Lemma palace_dests_exact b x y p dirs m :
  cells_ok b = true ->
  In m (flat_map (palace_dest b x y (sign_of p)) dirs) <->
  exists dx dy,
    In (dx, dy) dirs /\ m = (x, y, x + dx, y + dy) /\
    is_in_palace (x + dx) (y + dy) (sign_of p) = true /\
    ~ own_piece (cell b (x + dx) (y + dy)) (sign_of p).
Proof.
  intros Hc. rewrite in_flat_map. split.
  - intros ([dx dy] & Hd & H). apply palace_dest_In in H.
    destruct H as (-> & P & T). exists dx, dy.
    repeat split; auto. now apply mul8_not_own.
  - intros (dx & dy & Hd & -> & P & T). exists (dx, dy). split; [exact Hd|].
    apply palace_dest_In. repeat split; auto. now apply mul8_not_own.
Qed.

(** The General steps one cell orthogonally onto a cell of its own palace
    that holds no piece of its side, and nowhere else. *)
Theorem general_moves_exact (s : ChineseChess) (x y : Z) (p : player) :
  wf_board (board s) = true ->
  exists ms,
    general_moves np_getitem x y (sign_of p) s = Some (ms, s) /\
    forall m,
      In m ms <->
      exists dx dy,
        In (dx, dy) [(0, 1); (1, 0); (0, -1); (-1, 0)] /\
        m = (x, y, x + dx, y + dy) /\
        is_in_palace (x + dx) (y + dy) (sign_of p) = true /\
        ~ own_piece (cell (board s) (x + dx) (y + dy)) (sign_of p).
Proof.
  intros Hwf. eexists. split.
  - apply general_moves_run; [apply np_getitem_reads | now apply wf_board_shape].
  - intros m. now apply palace_dests_exact, wf_board_cells.
Qed.

Lemma general_moves_exact_witness :
  exists ms,
    general_moves np_getitem 9 4 (sign_of Red) start = Some (ms, start) /\
    forall m,
      In m ms <->
      exists dx dy,
        In (dx, dy) [(0, 1); (1, 0); (0, -1); (-1, 0)] /\
        m = (9, 4, 9 + dx, 4 + dy) /\
        is_in_palace (9 + dx) (4 + dy) (sign_of Red) = true /\
        ~ own_piece (cell (board start) (9 + dx) (4 + dy)) (sign_of Red).
Proof. apply (general_moves_exact start 9 4 Red). reflexivity. Defined.

(** The Advisor steps one cell diagonally onto a cell of its own palace
    that holds no piece of its side, and nowhere else. *)
Theorem advisor_moves_exact (s : ChineseChess) (x y : Z) (p : player) :
  wf_board (board s) = true ->
  exists ms,
    advisor_moves np_getitem x y (sign_of p) s = Some (ms, s) /\
    forall m,
      In m ms <->
      exists dx dy,
        In (dx, dy) [(1, 1); (1, -1); (-1, 1); (-1, -1)] /\
        m = (x, y, x + dx, y + dy) /\
        is_in_palace (x + dx) (y + dy) (sign_of p) = true /\
        ~ own_piece (cell (board s) (x + dx) (y + dy)) (sign_of p).
Proof.
  intros Hwf. eexists. split.
  - apply advisor_moves_run; [apply np_getitem_reads | now apply wf_board_shape].
  - intros m. now apply palace_dests_exact, wf_board_cells.
Qed.

Lemma advisor_moves_exact_witness :
  exists ms,
    advisor_moves np_getitem 0 3 (sign_of Black) start = Some (ms, start) /\
    forall m,
      In m ms <->
      exists dx dy,
        In (dx, dy) [(1, 1); (1, -1); (-1, 1); (-1, -1)] /\
        m = (0, 3, 0 + dx, 3 + dy) /\
        is_in_palace (0 + dx) (3 + dy) (sign_of Black) = true /\
        ~ own_piece (cell (board start) (0 + dx) (3 + dy)) (sign_of Black).
Proof. apply (advisor_moves_exact start 0 3 Black). reflexivity. Defined.

Lemma block_dest_In b x y sign d m :
  In m (block_dest b x y sign d) <->
  m = (x, y, x + fst d, y + snd d) /\
  in_bounds (x + floordiv2 (fst d)) (y + floordiv2 (snd d)) = true /\
  cell b (x + floordiv2 (fst d)) (y + floordiv2 (snd d)) = 0 /\
  mul8 (cell b (x + fst d) (y + snd d)) sign <= 0.
Proof.
  unfold block_dest.
  destruct (in_bounds (x + floordiv2 _) _) eqn:K; simpl.
  2:{ split; [intros [] | intros (_ & H & _); discriminate]. }
  destruct (cell b (x + floordiv2 _) _ =? 0) eqn:Z0; simpl.
  2:{ apply Z.eqb_neq in Z0. split; [intros [] | intros (_ & _ & H & _); contradiction]. }
  apply Z.eqb_eq in Z0.
  destruct (mul8 _ sign <=? 0) eqn:T; simpl.
  - split; [intros [<-|[]]; repeat split; auto; lia | intros (-> & _); now left].
  - split; [intros [] | intros (_ & _ & _ & H); lia].
Qed.

(** The Elephant jumps two cells diagonally to a cell inside the grid on
    its own side of the river that holds no piece of its side, provided the
    cell in between is empty, and nowhere else. *)
Theorem elephant_moves_exact (s : ChineseChess) (x y : Z) (p : player) :
  wf_board (board s) = true -> in_bounds x y = true ->
  exists ms,
    elephant_moves np_getitem x y (sign_of p) s = Some (ms, s) /\
    forall m,
      In m ms <->
      exists sx sy,
        In (sx, sy) [(1, 1); (1, -1); (-1, 1); (-1, -1)] /\
        m = (x, y, x + 2 * sx, y + 2 * sy) /\
        in_bounds (x + 2 * sx) (y + 2 * sy) = true /\
        is_in_territory (x + 2 * sx) (sign_of p) = true /\
        cell (board s) (x + sx) (y + sy) = 0 /\
        ~ own_piece (cell (board s) (x + 2 * sx) (y + 2 * sy)) (sign_of p).
Proof.
  intros Hwf Hb. pose proof (wf_board_cells _ Hwf) as Hc.
  eexists. split.
  { apply elephant_moves_run; [apply np_getitem_reads | now apply wf_board_shape]. }
  intros m. rewrite in_flat_map.
  assert (Hone : forall sx sy,
    (sx = 1 \/ sx = -1) -> (sy = 1 \/ sy = -1) ->
    (In m (elephant_dest (board s) x y (sign_of p) (2 * sx, 2 * sy)) <->
     m = (x, y, x + 2 * sx, y + 2 * sy) /\
     in_bounds (x + 2 * sx) (y + 2 * sy) = true /\
     is_in_territory (x + 2 * sx) (sign_of p) = true /\
     cell (board s) (x + sx) (y + sy) = 0 /\
     ~ own_piece (cell (board s) (x + 2 * sx) (y + 2 * sy)) (sign_of p))).
  { intros sx sy Hsx Hsy. unfold elephant_dest. simpl fst. simpl snd.
    rewrite <- (mul8_not_own _ _ _ _ Hc).
    assert (Hfx : floordiv2 (2 * sx) = sx)
      by (destruct Hsx; subst; reflexivity).
    assert (Hfy : floordiv2 (2 * sy) = sy)
      by (destruct Hsy; subst; reflexivity).
    destruct (in_bounds (x + 2 * sx) (y + 2 * sy)) eqn:N; simpl.
    2:{ split; [intros [] | intros (_ & H & _); discriminate]. }
    destruct (is_in_territory (x + 2 * sx) (sign_of p)) eqn:T.
    2:{ split; [intros [] | intros (_ & _ & H & _); discriminate]. }
    rewrite block_dest_In. simpl fst. simpl snd. rewrite Hfx, Hfy.
    assert (Hk : in_bounds (x + sx) (y + sy) = true).
    { apply in_bounds_iff in Hb, N. apply in_bounds_iff. lia. }
    rewrite Hk. tauto. }
  split.
  - intros ([dx dy] & Hd & H). simpl in Hd.
    destruct Hd as [E|[E|[E|[E|[]]]]]; injection E as <- <-.
    + exists 1, 1. split; [simpl; tauto|]. apply (Hone 1 1); auto.
    + exists 1, (-1). split; [simpl; tauto|]. apply (Hone 1 (-1)); auto.
    + exists (-1), 1. split; [simpl; tauto|]. apply (Hone (-1) 1); auto.
    + exists (-1), (-1). split; [simpl; tauto|]. apply (Hone (-1) (-1)); auto.
  - intros (sx & sy & Hd & H). exists (2 * sx, 2 * sy). simpl in Hd.
    destruct Hd as [E|[E|[E|[E|[]]]]]; injection E as <- <-;
      (split; [simpl; tauto | apply Hone; auto]).
Qed.

Lemma elephant_moves_exact_witness :
  exists ms,
    elephant_moves np_getitem 9 2 (sign_of Red) start = Some (ms, start) /\
    forall m,
      In m ms <->
      exists sx sy,
        In (sx, sy) [(1, 1); (1, -1); (-1, 1); (-1, -1)] /\
        m = (9, 2, 9 + 2 * sx, 2 + 2 * sy) /\
        in_bounds (9 + 2 * sx) (2 + 2 * sy) = true /\
        is_in_territory (9 + 2 * sx) (sign_of Red) = true /\
        cell (board start) (9 + sx) (2 + sy) = 0 /\
        ~ own_piece (cell (board start) (9 + 2 * sx) (2 + 2 * sy))
                    (sign_of Red).
Proof. apply (elephant_moves_exact start 9 2 Red); reflexivity. Defined.

Lemma soldier_dest_In b x y sign d m :
  In m (soldier_dest b x y sign d) <->
  m = (x, y, x + fst d, y + snd d) /\
  in_bounds (x + fst d) (y + snd d) = true /\
  mul8 (cell b (x + fst d) (y + snd d)) sign <= 0.
Proof.
  unfold soldier_dest.
  destruct (in_bounds _ _) eqn:N; simpl.
  - destruct (mul8 _ sign <=? 0) eqn:T; simpl.
    + split; [intros [<-|[]]; repeat split; lia | intros (-> & _); now left].
    + split; [intros [] | intros (_ & _ & H); lia].
  - split; [intros [] | intros (_ & H & _); discriminate].
Qed.

(** The directions a Soldier may take: one step forward, toward the other
    side's back rank, and one step sideways once it stands beyond the
    river; never backward. *)
Lemma soldier_directions_In x p dx dy :
  0 <= x < 10 ->
  In (dx, dy) (soldier_directions x (sign_of p)) <->
  (dx = - sign_of p /\ dy = 0) \/
  (dx = 0 /\ (dy = 1 \/ dy = -1) /\ is_in_territory x (sign_of p) = false).
Proof.
  intros Hx. unfold soldier_directions, is_in_territory.
  destruct p; cbn [sign_of player_eqb Z.eqb Z.opp Pos.eqb].
  - destruct (x <=? 4) eqn:E; simpl.
    + assert (T : (5 <=? x) && (x <=? 9) = false)
        by (apply andb_false_iff; left; lia).
      rewrite T. split.
      * intros [H|[H|[H|[]]]]; injection H as <- <-; auto.
      * intros [[-> ->]|(-> & [->| ->] & _)]; auto.
    + assert (T : (5 <=? x) && (x <=? 9) = true)
        by (apply andb_true_iff; lia).
      rewrite T. split.
      * intros [H|[]]; injection H as <- <-; auto.
      * intros [[-> ->]|(_ & _ & H)]; [auto | discriminate].
  - destruct (5 <=? x) eqn:E; simpl.
    + assert (T : (0 <=? x) && (x <=? 4) = false)
        by (apply andb_false_iff; right; lia).
      rewrite T. split.
      * intros [H|[H|[H|[]]]]; injection H as <- <-; auto.
      * intros [[-> ->]|(-> & [->| ->] & _)]; auto.
    + assert (T : (0 <=? x) && (x <=? 4) = true)
        by (apply andb_true_iff; lia).
      rewrite T. split.
      * intros [H|[]]; injection H as <- <-; auto.
      * intros [[-> ->]|(_ & _ & H)]; [auto | discriminate].
Qed.

(** The Soldier steps one cell forward, or one cell sideways once it has
    left its own side of the river, onto a cell inside the grid that holds
    no piece of its side, and nowhere else. *)
Theorem soldier_moves_exact (s : ChineseChess) (x y : Z) (p : player) :
  wf_board (board s) = true -> in_bounds x y = true ->
  exists ms,
    soldier_moves np_getitem x y (sign_of p) s = Some (ms, s) /\
    forall m,
      In m ms <->
      exists nx ny,
        m = (x, y, nx, ny) /\
        ((nx = x - sign_of p /\ ny = y) \/
         (nx = x /\ (ny = y + 1 \/ ny = y - 1) /\
          is_in_territory x (sign_of p) = false)) /\
        in_bounds nx ny = true /\
        ~ own_piece (cell (board s) nx ny) (sign_of p).
Proof.
  intros Hwf Hb. pose proof (wf_board_cells _ Hwf) as Hc.
  assert (Hx : 0 <= x < 10) by (apply in_bounds_iff in Hb; lia).
  eexists. split.
  { apply soldier_moves_run; [apply np_getitem_reads | now apply wf_board_shape]. }
  intros m. rewrite in_flat_map. split.
  - intros ([dx dy] & Hd & H). apply soldier_dest_In in H.
    simpl fst in H. simpl snd in H. destruct H as (-> & N & T).
    apply (soldier_directions_In x p dx dy Hx) in Hd.
    exists (x + dx), (y + dy). split; [reflexivity|].
    split; [|split; [exact N | now apply mul8_not_own]].
    destruct Hd as [[-> ->]|(-> & Hdy & R)]; [left; lia | right].
    split; [lia|]. split; [lia | exact R].
  - intros (nx & ny & -> & Hd & N & T). exists (nx - x, ny - y). split.
    + apply (soldier_directions_In x p _ _ Hx).
      destruct Hd as [[-> ->]|(-> & Hdy & R)]; [left; lia | right].
      split; [lia|]. split; [lia | exact R].
    + apply soldier_dest_In. simpl fst. simpl snd.
      replace (x + (nx - x)) with nx by lia.
      replace (y + (ny - y)) with ny by lia.
      split; [reflexivity|]. split; [exact N | now apply mul8_not_own].
Qed.

Lemma soldier_moves_exact_witness :
  exists ms,
    soldier_moves np_getitem 6 4 (sign_of Red) start = Some (ms, start) /\
    forall m,
      In m ms <->
      exists nx ny,
        m = (6, 4, nx, ny) /\
        ((nx = 6 - sign_of Red /\ ny = 4) \/
         (nx = 6 /\ (ny = 4 + 1 \/ ny = 4 - 1) /\
          is_in_territory 6 (sign_of Red) = false)) /\
        in_bounds nx ny = true /\
        ~ own_piece (cell (board start) nx ny) (sign_of Red).
Proof. apply (soldier_moves_exact start 6 4 Red); reflexivity. Defined.

Lemma horse_moves_floor_leg_witness :
  exists ms,
    horse_moves np_getitem 9 1 (sign_of Red) start = Some (ms, start) /\
    forall dx dy, In (dx, dy) horse_directions ->
      (In (9, 1, 9 + dx, 1 + dy) ms <->
       in_bounds (9 + dx) (1 + dy) = true /\
       cell (board start) (9 + floordiv2 dx) (1 + floordiv2 dy) = 0 /\
       ~ own_piece (cell (board start) (9 + dx) (1 + dy)) (sign_of Red)).
Proof. apply (horse_moves_floor_leg start 9 1 Red); reflexivity. Defined.

(** ** Sources of generated moves *)

Lemma legal_dests_source b sign x1 y1 x2 y2 :
  In (x1, y1, x2, y2) (legal_dests b sign) ->
  in_bounds x1 y1 = true /\ 0 < mul8 (cell b x1 y1) sign /\
  In (x1, y1, x2, y2) (piece_dests b x1 y1 (abs8 (cell b x1 y1)) sign).
Proof.
  rewrite legal_dests_In. intros (i & j & Hb & O & H).
  pose proof (piece_dests_lands _ _ _ _ _ _ H) as (nx & ny & E & _).
  injection E as -> -> _ _. auto.
Qed.

Lemma piece_dests_kind b x y piece_type sign m :
  In m (piece_dests b x y piece_type sign) -> 1 <= piece_type <= 7.
Proof.
  unfold piece_dests.
  repeat match goal with
         | |- context [if ?t =? ?c then _ else _] =>
             destruct (Z.eqb_spec t c); [lia|]
         end.
  intros [].
Qed.

Lemma abs8_small v : -128 < v < 128 -> abs8 v = Z.abs v.
Proof. intros H. unfold abs8, wrap8. rewrite Z.mod_small by lia. lia. Qed.

(** Every move [get_legal_moves] returns for a side starts on a cell that
    holds a piece of that side with a kind from 1 to 7, and ends on another
    cell. *)
Theorem get_legal_moves_sources (s : ChineseChess) (p : player) :
  wf_board (board s) = true ->
  exists ms,
    get_legal_moves np_getitem p s = Some (ms, s) /\
    forall x1 y1 x2 y2, In (x1, y1, x2, y2) ms ->
      exists v, np_getitem (board s) x1 y1 = Some v /\
                own_piece v (sign_of p) /\ 1 <= Z.abs v <= 7 /\
                (x1, y1) <> (x2, y2).
Proof.
  intros Hwf. pose proof (wf_board_shape _ Hwf) as Hs.
  pose proof (wf_board_cells _ Hwf) as Hc.
  exists (legal_dests (board s) (sign_of p)).
  split; [now apply get_legal_moves_run; [apply np_getitem_reads|]|].
  intros x1 y1 x2 y2 H.
  pose proof (legal_dests_source _ _ _ _ _ _ H) as (Hb & Hown & Hk).
  pose proof (piece_dests_lands _ _ _ _ _ _ Hk) as (nx & ny & E & _ & Hfree).
  injection E as <- <-. apply piece_dests_kind in Hk.
  rewrite abs8_small in Hk by now apply cells_ok_cell.
  rewrite mul8_sign in Hown, Hfree
    by auto using cells_ok_cell, sign_of_cases.
  exists (cell (board s) x1 y1). split; [now apply np_getitem_reads|].
  split; [unfold own_piece; lia|]. split; [exact Hk|].
  intros E. injection E as -> ->. lia.
Qed.

Lemma get_legal_moves_sources_witness :
  exists ms,
    get_legal_moves np_getitem Black start = Some (ms, start) /\
    forall x1 y1 x2 y2, In (x1, y1, x2, y2) ms ->
      exists v, np_getitem (board start) x1 y1 = Some v /\
                own_piece v (sign_of Black) /\ 1 <= Z.abs v <= 7 /\
                (x1, y1) <> (x2, y2).
Proof. apply (get_legal_moves_sources start Black). reflexivity. Defined.

(** A side with no piece on the board has no move: [get_legal_moves]
    returns the empty list. *)
Theorem get_legal_moves_no_pieces (s : ChineseChess) (p : player) :
  wf_board (board s) = true ->
  (forall x y v, np_getitem (board s) x y = Some v ->
                 in_bounds x y = true -> ~ own_piece v (sign_of p)) ->
  get_legal_moves np_getitem p s = Some ([], s).
Proof.
  intros Hwf Hnone. pose proof (wf_board_shape _ Hwf) as Hs.
  pose proof (wf_board_cells _ Hwf) as Hc.
  rewrite (get_legal_moves_run _ np_getitem_reads s Hs p).
  destruct (legal_dests (board s) (sign_of p)) as [|m ms] eqn:E; [reflexivity|].
  exfalso. assert (Hin : In m (legal_dests (board s) (sign_of p)))
    by (rewrite E; now left).
  apply legal_dests_move in Hin.
  destruct Hin as (x1 & y1 & x2 & y2 & _ & Hb & _ & Hown & _).
  rewrite mul8_sign in Hown by auto using cells_ok_cell, sign_of_cases.
  apply (Hnone x1 y1 (cell (board s) x1 y1)); auto.
  - now apply np_getitem_reads.
  - unfold own_piece. lia.
Qed.

Lemma get_legal_moves_no_pieces_witness :
  get_legal_moves np_getitem Red (MkChess zeros Red false None [] None)
  = Some ([], MkChess zeros Red false None [] None).
Proof.
  apply (get_legal_moves_no_pieces (MkChess zeros Red false None [] None) Red).
  - reflexivity.
  - intros x y v H Hb. apply in_bounds_iff in Hb.
    assert (Hall : forallb (fun x => forallb (fun y =>
              match np_getitem zeros x y with
              | Some v => v =? 0
              | None => false
              end) (range 0 9)) (range 0 10) = true) by reflexivity.
    rewrite forallb_forall in Hall.
    specialize (Hall x ltac:(apply in_range; lia)).
    rewrite forallb_forall in Hall.
    specialize (Hall y ltac:(apply in_range; lia)).
    cbn [board] in H. rewrite H in Hall. apply Z.eqb_eq in Hall. subst v.
    unfold own_piece. lia.
Defined.

(** ** What a successful move changes *)

Lemma cell_moved_board b x1 y1 x2 y2 x y :
  shape_ok b = true ->
  in_bounds x1 y1 = true -> in_bounds x2 y2 = true -> in_bounds x y = true ->
  cell (moved_board b (x1, y1, x2, y2)) x y
  = if (x1 =? x) && (y1 =? y) then 0
    else if (x2 =? x) && (y2 =? y) then cell b x1 y1
    else cell b x y.
Proof.
  intros Hs H1 H2 Hb. unfold moved_board.
  rewrite cell_put by auto using shape_ok_put.
  destruct ((x1 =? x) && (y1 =? y)); [reflexivity|].
  now rewrite cell_put.
Qed.

Lemma after_move_fields s mv :
  current_player (after_move s mv) = other (current_player s) /\
  board_hash (after_move s mv) = board_hash s /\
  move_history (after_move s mv)
  = move_history s
    ++ [HistoryEntry (current_player s) mv
          (cell (board s) (snd (fst mv)) (snd mv))].
Proof.
  destruct mv as [[[x1 y1] x2] y2]. unfold after_move.
  destruct (negb (board_has _ 1)); [auto|].
  destruct (negb (board_has _ (-1))); auto.
Qed.

(** A legal move joins two different cells. *)
Lemma legal_move_distinct b sign x1 y1 x2 y2 :
  In (x1, y1, x2, y2) (legal_dests b sign) -> (x1, y1) <> (x2, y2).
Proof.
  intros H. apply legal_dests_move in H.
  destruct H as (a1 & b1 & a2 & b2 & E & _ & _ & Hown & Hfree).
  injection E as -> -> -> ->. intros E. injection E as -> ->. lia.
Qed.

(** When [make_move] returns True: the source cell is empty, the
    destination cell holds the piece that stood on the source, every other
    cell is as before, the history has one more entry recording the mover,
    the move and what stood on the destination, the turn has passed to the
    other side, and the board keeps its shape. *)
Theorem make_move_effect (s : ChineseChess) (x1 y1 x2 y2 : Z)
    (s' : ChineseChess) :
  shape_ok (board s) = true ->
  make_move np_getitem (x1, y1, x2, y2) s = Some (true, s') ->
  np_getitem (board s') x1 y1 = Some 0 /\
  np_getitem (board s') x2 y2 = np_getitem (board s) x1 y1 /\
  (forall x y, in_bounds x y = true -> (x, y) <> (x1, y1) -> (x, y) <> (x2, y2) ->
               np_getitem (board s') x y = np_getitem (board s) x y) /\
  (exists c, np_getitem (board s) x2 y2 = Some c /\
             move_history s'
             = move_history s
               ++ [HistoryEntry (current_player s) (x1, y1, x2, y2) c]) /\
  current_player s' = other (current_player s) /\
  board_hash s' = board_hash s /\
  shape_ok (board s') = true.
Proof.
  intros Hs H. destruct (game_over s) eqn:Hover.
  { rewrite make_move_over in H by exact Hover. discriminate. }
  apply (make_move_cases _ np_getitem_reads s Hs Hover) in H.
  destruct H as [(E & _) | (_ & -> & Hin)]; [discriminate|].
  pose proof (legal_move_distinct _ _ _ _ _ _ Hin) as Hne.
  pose proof (legal_dests_move _ _ _ Hin)
    as (a1 & b1 & a2 & b2 & E & H1 & H2 & _).
  injection E as <- <- <- <-.
  pose proof (shape_ok_moved_board _ (x1, y1, x2, y2) Hs) as Hs'.
  destruct (after_move_fields s (x1, y1, x2, y2)) as (Hp & Hh & Hm).
  rewrite board_after_move.
  assert (Hread : forall x y, in_bounds x y = true ->
            np_getitem (moved_board (board s) (x1, y1, x2, y2)) x y
            = Some (if (x1 =? x) && (y1 =? y) then 0
                    else if (x2 =? x) && (y2 =? y) then cell (board s) x1 y1
                    else cell (board s) x y)).
  { intros x y Hb. rewrite (np_getitem_reads _ _ _ Hs' Hb).
    now rewrite cell_moved_board. }
  repeat split.
  - rewrite Hread by exact H1. now rewrite !Z.eqb_refl.
  - rewrite Hread by exact H2. rewrite (np_getitem_reads _ _ _ Hs H1).
    destruct ((x1 =? x2) && (y1 =? y2)) eqn:E.
    + apply andb_true_iff in E. destruct E as [Ex Ey].
      apply Z.eqb_eq in Ex, Ey. subst. contradiction.
    + now rewrite !Z.eqb_refl.
  - intros x y Hb N1 N2. rewrite Hread by exact Hb.
    rewrite (np_getitem_reads _ _ _ Hs Hb).
    destruct ((x1 =? x) && (y1 =? y)) eqn:E1.
    { apply andb_true_iff in E1. destruct E1 as [Ex Ey].
      apply Z.eqb_eq in Ex, Ey. subst. contradiction. }
    destruct ((x2 =? x) && (y2 =? y)) eqn:E2; [|reflexivity].
    apply andb_true_iff in E2. destruct E2 as [Ex Ey].
    apply Z.eqb_eq in Ex, Ey. subst. contradiction.
  - exists (cell (board s) x2 y2). split; [now apply np_getitem_reads|].
    exact Hm.
  - exact Hp.
  - exact Hh.
  - exact Hs'.
Qed.

Lemma make_move_effect_witness :
  let s' := after_move start (9, 1, 7, 2) in
  np_getitem (board s') 9 1 = Some 0 /\
  np_getitem (board s') 7 2 = np_getitem (board start) 9 1 /\
  (forall x y, in_bounds x y = true -> (x, y) <> (9, 1) -> (x, y) <> (7, 2) ->
               np_getitem (board s') x y = np_getitem (board start) x y) /\
  (exists c, np_getitem (board start) 7 2 = Some c /\
             move_history s'
             = move_history start
               ++ [HistoryEntry (current_player start) (9, 1, 7, 2) c]) /\
  current_player s' = other (current_player start) /\
  board_hash s' = board_hash start /\
  shape_ok (board s') = true.
Proof. apply (make_move_effect start 9 1 7 2); reflexivity. Defined.

(** ** Invariants of a game *)

Lemma turn_S n : turn (S n) = other (turn n).
Proof.
  unfold turn. rewrite Nat.even_succ, <- Nat.negb_even.
  now destruct (Nat.even n).
Qed.

(** What a call of [make_move] can leave behind. *)
Lemma make_move_step s mv r s' :
  shape_ok (board s) = true ->
  make_move np_getitem mv s = Some (r, s') ->
  s' = s \/
  (game_over s = false /\ s' = after_move s mv /\
   In mv (legal_dests (board s) (sign_of (current_player s)))).
Proof.
  intros Hs H. destruct (game_over s) eqn:Hover.
  - rewrite make_move_over in H by exact Hover. injection H as <- <-. now left.
  - apply (make_move_cases _ np_getitem_reads s Hs Hover) in H.
    destruct H as [(_ & -> & _) | (_ & -> & Hin)]; auto.
Qed.

(** Red moves first and the sides alternate: the side to move is fixed by
    the number of moves in the history, and the [i]-th entry of the history
    was made by the side whose turn it was after [i] moves. *)
Theorem reachable_turns (s : ChineseChess) :
  reachable s ->
  current_player s = turn (length (move_history s)) /\
  forall i e, move_history s !! i = Some e -> h_player e = turn i.
Proof.
  induction 1 as [s H | s mv r s' Hr IH H].
  - rewrite new_game_start in H. injection H as <-. split; [reflexivity|].
    intros i e Hi. destruct i; discriminate.
  - destruct (make_move_step s mv r s' (reachable_shape s Hr) H)
      as [-> | (_ & -> & _)]; [exact IH|].
    destruct IH as [Hp Hh].
    destruct (after_move_fields s mv) as (Hp' & _ & Hm).
    rewrite Hp', Hm, length_app. simpl length. split.
    + rewrite Nat.add_1_r, turn_S. now rewrite Hp.
    + intros i e Hi. apply lookup_app_Some in Hi.
      destruct Hi as [Hi | [Hge Hi]]; [now apply Hh|].
      destruct (i - length (move_history s))%nat as [|k] eqn:Ek;
        [|destruct k; discriminate].
      injection Hi as <-. simpl. rewrite Hp. f_equal. lia.
Qed.

Lemma reachable_turns_witness :
  current_player start = turn (length (move_history start)) /\
  forall i e, move_history start !! i = Some e -> h_player e = turn i.
Proof. apply (reachable_turns start). apply reachable_new. reflexivity. Defined.

Lemma after_move_open s mv :
  game_over (after_move s mv) = false ->
  winner (after_move s mv) = winner s.
Proof.
  destruct mv as [[[x1 y1] x2] y2]. unfold after_move.
  destruct (negb (board_has _ 1)); [discriminate|].
  destruct (negb (board_has _ (-1))); [discriminate | reflexivity].
Qed.

(** In every state of a game: while the game is not over there is no
    winner and both Generals are on the board; once it is over the winner is
    a side whose General is on the board while the other side's is not. *)
Theorem reachable_winner (s : ChineseChess) :
  reachable s ->
  (game_over s = false ->
   winner s = None /\
   board_has (board s) 1 = true /\ board_has (board s) (-1) = true) /\
  (game_over s = true ->
   exists p, winner s = Some p /\
             board_has (board s) (general_of p) = true /\
             board_has (board s) (general_of (other p)) = false).
Proof.
  induction 1 as [s H | s mv r s' Hr IH H].
  - rewrite new_game_start in H. injection H as <-.
    split; [intros _; repeat split | discriminate].
  - destruct (make_move_step s mv r s' (reachable_shape s Hr) H)
      as [-> | (Hover & -> & Hin)]; [exact IH|].
    pose proof (legal_move_outcome s mv (reachable_consistent s Hr) Hover Hin)
      as (_ & Hend & Hc').
    destruct IH as [IH _]. destruct (IH Hover) as (Hw & _). split.
    + intros Hopen. rewrite (after_move_open s mv Hopen).
      split; [exact Hw | exact (proj2 Hc' Hopen)].
    + intros Hclosed. exists (current_player s). now apply Hend.
Qed.

Lemma reachable_winner_witness :
  (game_over start = false ->
   winner start = None /\
   board_has (board start) 1 = true /\ board_has (board start) (-1) = true) /\
  (game_over start = true ->
   exists p, winner start = Some p /\
             board_has (board start) (general_of p) = true /\
             board_has (board start) (general_of (other p)) = false).
Proof. apply (reachable_winner start). apply reachable_new. reflexivity. Defined.

Lemma reachable_generals s :
  reachable s ->
  (count_cells 1 (board s) <= 1)%nat /\ (count_cells (-1) (board s) <= 1)%nat.
Proof.
  induction 1 as [s H | s mv r s' Hr IH H].
  - rewrite new_game_start in H. injection H as <-. simpl. lia.
  - pose proof (make_move_count s mv r s' (reachable_shape s Hr) H) as [_ Hc].
    pose proof (Hc 1 ltac:(lia)). pose proof (Hc (-1) ltac:(lia)). lia.
Qed.

(** In a game, a successful move ends the game exactly when the cell it
    lands on held the other side's General. *)
Theorem capture_of_general_ends_game (s : ChineseChess) (x1 y1 x2 y2 : Z)
    (s' : ChineseChess) :
  reachable s ->
  make_move np_getitem (x1, y1, x2, y2) s = Some (true, s') ->
  (game_over s' = true <->
   np_getitem (board s) x2 y2 = Some (general_of (other (current_player s)))).
Proof.
  intros Hr H. pose proof (reachable_shape s Hr) as Hs.
  pose proof (reachable_consistent s Hr) as Hc.
  destruct (game_over s) eqn:Hover.
  { rewrite make_move_over in H by exact Hover. discriminate. }
  apply (make_move_cases _ np_getitem_reads s Hs Hover) in H.
  destruct H as [(E & _) | (_ & -> & Hin)]; [discriminate|].
  pose proof (legal_move_outcome s _ Hc Hover Hin) as (Hiff & _ & _).
  pose proof (mover_general_stays s _ (proj1 Hc) Hin) as Hstay.
  destruct (proj2 Hc Hover) as [Hred Hblack].
  apply board_has_count in Hred, Hblack.
  pose proof (reachable_generals s Hr) as [Hred1 Hblack1].
  pose proof (legal_dests_move _ _ _ Hin)
    as (a1 & b1 & a2 & b2 & E & H1 & H2 & _).
  injection E as <- <- <- <-.
  rewrite (np_getitem_reads _ _ _ Hs H2), Hiff, !board_has_false.
  rewrite board_after_move in *.
  pose proof (count_moved_board 1 (board s) x1 y1 x2 y2 ltac:(lia) Hs H1 H2) as C1.
  pose proof (count_moved_board (-1) (board s) x1 y1 x2 y2 ltac:(lia) Hs H1 H2) as C2.
  destruct (current_player s); cbn [general_of sign_of player_eqb other] in *.
  - destruct (Z.eqb_spec (cell (board s) x2 y2) (-1)) as [E|E].
    + split; [intros _; now rewrite E | intros _; right; lia].
    + split; [intros [?|?]; lia | intros E'; injection E' as E'; contradiction].
  - destruct (Z.eqb_spec (cell (board s) x2 y2) 1) as [E|E].
    + split; [intros _; now rewrite E | intros _; left; lia].
    + split; [intros [?|?]; lia | intros E'; injection E' as E'; contradiction].
Qed.

Lemma capture_of_general_ends_game_witness :
  game_over (after_move start (7, 1, 0, 1)) = true <->
  np_getitem (board start) 0 1
  = Some (general_of (other (current_player start))).
Proof.
  apply (capture_of_general_ends_game start 7 1 0 1).
  - apply reachable_new. reflexivity.
  - reflexivity.
Defined.

(** ** Material *)

Lemma occupied_row_insert v (r : list Z) :
  forall j c, r !! j = Some c ->
    (occupied_row (<[j := v]> r) + (if Z.eqb c 0 then 0 else 1)
     = occupied_row r + (if Z.eqb v 0 then 0 else 1))%nat.
Proof.
  induction r as [|a r IH]; intros j c Hj; [discriminate|].
  destruct j as [|j]; simpl in *.
  - injection Hj as ->. lia.
  - specialize (IH j c Hj). lia.
Qed.

Lemma occupied_insert (b : list (list Z)) :
  forall i row row', b !! i = Some row ->
    (occupied (<[i := row']> b) + occupied_row row
     = occupied b + occupied_row row')%nat.
Proof.
  induction b as [|a b IH]; intros i row row' Hi; [discriminate|].
  destruct i as [|i]; simpl in *.
  - injection Hi as ->. lia.
  - specialize (IH i row row' Hi). lia.
Qed.

Lemma occupied_put b x y v :
  shape_ok b = true -> in_bounds x y = true ->
  (occupied (put b x y v) + (if Z.eqb (cell b x y) 0 then 0 else 1)
   = occupied b + (if Z.eqb v 0 then 0 else 1))%nat.
Proof.
  intros Hs Hb. destruct (shape_ok_lookup b x y Hs Hb) as (row & Hrow & Hv).
  unfold put. rewrite Hrow.
  pose proof (occupied_insert b _ row (<[Z.to_nat y := v]> row) Hrow).
  pose proof (occupied_row_insert v row _ _ Hv). lia.
Qed.

(** A move removes from the board what stood on its destination and
    nothing else. *)
Lemma occupied_moved_board b x1 y1 x2 y2 :
  shape_ok b = true ->
  in_bounds x1 y1 = true -> in_bounds x2 y2 = true ->
  (occupied (moved_board b (x1, y1, x2, y2))
   + (if Z.eqb (cell b x2 y2) 0 then 0 else 1) = occupied b)%nat.
Proof.
  intros Hs H1 H2. unfold moved_board.
  pose proof (occupied_put b x2 y2 (cell b x1 y1) Hs H2) as Ha.
  pose proof (occupied_put (put b x2 y2 (cell b x1 y1)) x1 y1 0
                (shape_ok_put _ _ _ _ Hs) H1) as Hb.
  rewrite (cell_put b x2 y2 _ x1 y1 Hs H2 H1) in Hb.
  assert (Hsame : (if (x2 =? x1) && (y2 =? y1) then cell b x1 y1 else cell b x1 y1)
                  = cell b x1 y1) by now destruct ((x2 =? x1) && (y2 =? y1)).
  rewrite Hsame in Hb. simpl in Hb. lia.
Qed.

Lemma captures_app h e :
  captures (h ++ [e])
  = (captures h + (if Z.eqb (h_captured e) 0 then 0 else 1))%nat.
Proof. induction h as [|a h IH]; simpl; [lia | rewrite IH; lia]. Qed.

(** Nothing is lost unrecorded: in every state of a game the pieces on the
    board and the captures recorded in the history add up to the 32 pieces
    of the starting position. *)
Theorem reachable_material (s : ChineseChess) :
  reachable s ->
  (occupied (board s) + captures (move_history s) = 32)%nat.
Proof.
  induction 1 as [s H | s mv r s' Hr IH H].
  - rewrite new_game_start in H. injection H as <-. reflexivity.
  - pose proof (reachable_shape s Hr) as Hs.
    destruct (make_move_step s mv r s' Hs H) as [-> | (_ & -> & Hin)];
      [exact IH|].
    pose proof (legal_dests_move _ _ _ Hin)
      as (x1 & y1 & x2 & y2 & -> & H1 & H2 & _).
    destruct (after_move_fields s (x1, y1, x2, y2)) as (_ & _ & Hm).
    rewrite board_after_move, Hm, captures_app. simpl h_captured.
    pose proof (occupied_moved_board (board s) x1 y1 x2 y2 Hs H1 H2). lia.
Qed.

Lemma reachable_material_witness :
  Nat.add (occupied (board (after_move start (7, 1, 0, 1))))
          (captures (move_history (after_move start (7, 1, 0, 1)))) = 32%nat.
Proof.
  apply (reachable_material (after_move start (7, 1, 0, 1))).
  apply (reachable_move start (7, 1, 0, 1) true).
  - apply reachable_new. reflexivity.
  - reflexivity.
Defined.

(** ** [reset] *)

Lemma reachable_hash s : reachable s -> board_hash s = None.
Proof.
  induction 1 as [s H | s mv r s' Hr IH H].
  - rewrite new_game_start in H. now injection H as <-.
  - destruct (make_move_step s mv r s' (reachable_shape s Hr) H)
      as [-> | (_ & -> & _)]; [exact IH|].
    destruct (after_move_fields s mv) as (_ & Hh & _). congruence.
Qed.

Lemma init_board_start : init_board = Some start_board.
Proof. vm_compute. reflexivity. Qed.

(** [reset] never fails; it restores the board, the side to move, the
    flag, the winner and the history of a new game and leaves the cached
    hash alone, so that on any state of a game it yields exactly the object
    the constructor builds. *)
Theorem reset_restores (s : ChineseChess) :
  exists s',
    reset s = Some (tt, s') /\
    Some (board s') = init_board /\
    current_player s' = Red /\ game_over s' = false /\ winner s' = None /\
    move_history s' = [] /\ board_hash s' = board_hash s /\
    (reachable s -> new_game = Some s').
Proof.
  exists (MkChess start_board Red false None [] (board_hash s)).
  split.
  { unfold reset, bind, call_init_board. now rewrite init_board_start. }
  cbn [board current_player game_over winner move_history board_hash].
  rewrite init_board_start. repeat split.
  intros Hr. now rewrite (reachable_hash s Hr).
Qed.

Lemma reset_restores_witness :
  new_game = Some (MkChess start_board Red false None [] None).
Proof.
  destruct (reset_restores (after_move start (7, 1, 0, 1)))
    as (s' & Hrun & _ & _ & _ & _ & _ & _ & Hnew).
  assert (E : s' = MkChess start_board Red false None [] None)
    by (vm_compute in Hrun; injection Hrun as <-; reflexivity).
  rewrite <- E. apply Hnew.
  apply (reachable_move start (7, 1, 0, 1) true).
  - apply reachable_new. reflexivity.
  - reflexivity.
Defined.

(** ** Palace and river *)

(** The two sides' territories split the ten rows between them, each
    palace lies in its side's territory and inside the grid, and no cell
    belongs to both palaces. *)
Theorem territory_partition (x y : Z) (p : player) :
  (0 <= x < 10 ->
   is_in_territory x (sign_of p) = negb (is_in_territory x (sign_of (other p)))) /\
  (is_in_territory x (sign_of p) = true -> 0 <= x < 10) /\
  (is_in_palace x y (sign_of p) = true ->
   is_in_territory x (sign_of p) = true /\ in_bounds x y = true /\
   is_in_palace x y (sign_of (other p)) = false).
Proof.
  unfold is_in_territory, is_in_palace, in_bounds.
  destruct p; cbn [sign_of other player_eqb Z.eqb Pos.eqb]; repeat split.
  all: try (intros H; apply andb_true_iff in H; destruct H as [H1 H2];
            apply andb_true_iff in H1, H2).
  all: try lia.
  all: try (intros H;
            destruct (5 <=? x) eqn:A; destruct (x <=? 9) eqn:B;
            destruct (0 <=? x) eqn:C; destruct (x <=? 4) eqn:D;
            simpl; try reflexivity; lia).
  all: try (repeat (apply andb_true_iff; split); lia).
  all: try (apply andb_false_iff; left; apply andb_false_iff; lia).
Qed.

Lemma territory_partition_witness :
  is_in_territory 9 (sign_of Red) = true /\ in_bounds 9 4 = true /\
  is_in_palace 9 4 (sign_of (other Red)) = false.
Proof.
  apply (proj2 (proj2 (territory_partition 9 4 Red))). reflexivity.
Defined.

(** ** Where the confined pieces stand *)

Lemma abs8_kind k p :
  In k [1; 2; 3; 7] -> abs8 (k * sign_of p) = k.
Proof.
  simpl. intros [<-|[<-|[<-|[<-|[]]]]]; destruct p; reflexivity.
Qed.

Lemma flat_map_palace_dest b x y sign dirs nx ny :
  In (x, y, nx, ny) (flat_map (palace_dest b x y sign) dirs) ->
  is_in_palace nx ny sign = true.
Proof.
  rewrite in_flat_map. intros (d & _ & H). apply palace_dest_In in H.
  destruct H as (E & P & _). injection E as -> ->. exact P.
Qed.

Lemma flat_map_elephant_dest b x y sign dirs nx ny :
  In (x, y, nx, ny) (flat_map (elephant_dest b x y sign) dirs) ->
  is_in_territory nx sign = true.
Proof.
  rewrite in_flat_map. intros (d & _ & H). unfold elephant_dest in H.
  destruct (in_bounds _ _); simpl in H; [|contradiction].
  destruct (is_in_territory (x + fst d) sign) eqn:T; [|contradiction].
  apply block_dest_In in H. destruct H as (E & _). injection E as -> _.
  exact T.
Qed.

Lemma flat_map_soldier_dest b x y p nx ny :
  0 <= x < 10 ->
  In (x, y, nx, ny)
     (flat_map (soldier_dest b x y (sign_of p))
               (soldier_directions x (sign_of p))) ->
  (nx = x - sign_of p /\ ny = y) \/
  (nx = x /\ is_in_territory x (sign_of p) = false).
Proof.
  intros Hx. rewrite in_flat_map. intros ([dx dy] & Hd & H).
  apply soldier_dest_In in H. destruct H as (E & _). simpl in E.
  injection E as -> ->.
  apply (soldier_directions_In x p dx dy Hx) in Hd.
  destruct Hd as [[-> ->]|(-> & _ & R)]; [left; lia | right].
  split; [lia | exact R].
Qed.

(** A piece that moves legally from a cell where it may stand lands on a
    cell where it may stand. *)
Lemma piece_dests_confined b p x y nx ny :
  in_bounds x y = true ->
  cell b x y * sign_of p > 0 ->
  In (x, y, nx, ny) (piece_dests b x y (abs8 (cell b x y)) (sign_of p)) ->
  confined (sign_of p) x y (cell b x y) ->
  confined (sign_of p) nx ny (cell b x y).
Proof.
  intros Hb Hown H (Hpal & Hter & Hsol). apply in_bounds_iff in Hb.
  unfold confined. repeat split.
  - intros [E|E]; rewrite E in H; rewrite abs8_kind in H by (simpl; tauto);
      now apply flat_map_palace_dest in H.
  - intros E. rewrite E in H. rewrite abs8_kind in H by (simpl; tauto).
    now apply flat_map_elephant_dest in H.
  - specialize (Hsol H0). rewrite H0 in H.
    rewrite abs8_kind in H by (simpl; tauto).
    apply flat_map_soldier_dest in H; [|lia]. destruct Hsol as [Hrow _].
    destruct p; cbn [sign_of player_eqb Z.eqb Pos.eqb] in *;
      destruct H as [[-> _]|[-> _]]; lia.
  - specialize (Hsol H0). rewrite H0 in H.
    rewrite abs8_kind in H by (simpl; tauto).
    apply flat_map_soldier_dest in H; [|lia]. destruct Hsol as [_ Hfile].
    destruct H as [[-> ->]|[-> R]]; [|congruence].
    intros T. apply Hfile. revert T. unfold is_in_territory.
    destruct p; cbn [sign_of player_eqb Z.eqb Pos.eqb];
      rewrite !andb_true_iff; lia.
Qed.

Lemma confined_other v p x y :
  v * sign_of p >= 0 -> confined (sign_of (other p)) x y v.
Proof.
  intros H. unfold confined.
  destruct p; cbn [sign_of other player_eqb] in *; repeat split; intros; lia.
Qed.

Lemma placed_moved_board b p x1 y1 x2 y2 :
  wf_board b = true -> placed b ->
  In (x1, y1, x2, y2) (legal_dests b (sign_of p)) ->
  placed (moved_board b (x1, y1, x2, y2)).
Proof.
  intros Hwf Hpl Hin. pose proof (wf_board_shape _ Hwf) as Hs.
  pose proof (wf_board_cells _ Hwf) as Hc.
  pose proof (legal_dests_source _ _ _ _ _ _ Hin) as (H1 & Hown & Hk).
  pose proof (piece_dests_lands _ _ _ _ _ _ Hk) as (nx & ny & E & H2 & _).
  injection E as <- <-.
  rewrite mul8_sign in Hown by auto using cells_ok_cell, sign_of_cases.
  intros x y Hb. rewrite cell_moved_board by assumption.
  destruct ((x1 =? x) && (y1 =? y)) eqn:E1.
  { split; [lia|].
    split; [apply (confined_other 0 Black) | apply (confined_other 0 Red)];
      cbn; lia. }
  destruct ((x2 =? x) && (y2 =? y)) eqn:E2; [|now apply Hpl].
  apply andb_true_iff in E2. destruct E2 as [Ex Ey].
  apply Z.eqb_eq in Ex, Ey. subst x y.
  destruct (Hpl x1 y1 H1) as (Hrange & Hred & Hblack). split; [exact Hrange|].
  apply Z.lt_gt in Hown.
  destruct p.
  - split; [exact (piece_dests_confined b Red x1 y1 x2 y2 H1 Hown Hk Hred) |
            apply (confined_other _ Red); lia].
  - split; [apply (confined_other _ Black); lia |
            exact (piece_dests_confined b Black x1 y1 x2 y2 H1 Hown Hk Hblack)].
Qed.

Lemma placed_start : placed start_board.
Proof.
  intros x y Hb. apply in_bounds_iff in Hb.
  assert (Hx : x = 0 \/ x = 1 \/ x = 2 \/ x = 3 \/ x = 4 \/
               x = 5 \/ x = 6 \/ x = 7 \/ x = 8 \/ x = 9) by lia.
  assert (Hy : y = 0 \/ y = 1 \/ y = 2 \/ y = 3 \/ y = 4 \/
               y = 5 \/ y = 6 \/ y = 7 \/ y = 8) by lia.
  clear Hb. unfold confined.
  destruct Hx as [->|[->|[->|[->|[->|[->|[->|[->|[->| ->]]]]]]]]];
    destruct Hy as [->|[->|[->|[->|[->|[->|[->|[->| ->]]]]]]]];
    match goal with
    | |- context [cell start_board ?a ?c] =>
        let v := eval vm_compute in (cell start_board a c) in
        change (cell start_board a c) with v
    end;
    cbn; repeat split; intros; try reflexivity; lia.
Qed.

(** In every state of a game every cell holds a piece code from -7 to 7,
    each General and Advisor stands in its own palace, each Elephant on its
    own side of the river, and no Soldier stands behind its starting row or,
    before crossing the river, off its starting file. *)
Theorem reachable_placed (s : ChineseChess) :
  reachable s ->
  forall x y, in_bounds x y = true ->
    -7 <= cell (board s) x y <= 7 /\
    confined 1 x y (cell (board s) x y) /\
    confined (-1) x y (cell (board s) x y).
Proof.
  induction 1 as [s H | s mv r s' Hr IH H].
  - rewrite new_game_start in H. injection H as <-. exact placed_start.
  - destruct (make_move_step s mv r s' (reachable_shape s Hr) H)
      as [-> | (_ & -> & Hin)]; [exact IH|].
    pose proof (legal_dests_move _ _ _ Hin) as (x1 & y1 & x2 & y2 & -> & _).
    rewrite board_after_move.
    exact (placed_moved_board _ (current_player s) x1 y1 x2 y2
             (proj1 (reachable_consistent s Hr)) IH Hin).
Qed.

Lemma reachable_placed_witness :
  -7 <= cell (board (after_move start (9, 1, 7, 2))) 7 2 <= 7 /\
  confined 1 7 2 (cell (board (after_move start (9, 1, 7, 2))) 7 2) /\
  confined (-1) 7 2 (cell (board (after_move start (9, 1, 7, 2))) 7 2).
Proof.
  apply (reachable_placed (after_move start (9, 1, 7, 2))).
  - apply (reachable_move start (9, 1, 7, 2) true).
    + apply reachable_new. reflexivity.
    + reflexivity.
  - reflexivity.
Defined.

(** ** The record the self-play driver keeps of a move *)

(** When the move the driver plays is accepted, the record it appends
    holds the board as it was before the move and, read after the move, the
    side that is to move next, and in both [piece_type] and
    [captured_piece] the kind (1 to 7) of the piece that moved: what stood on
    the destination is not in the record. *)
Theorem play_step_record (s : ChineseChess) (game_id move_count : Z)
    (x1 y1 x2 y2 : Z) (s' : ChineseChess) :
  wf_board (board s) = true ->
  make_move np_getitem (x1, y1, x2, y2) s = Some (true, s') ->
  exists rec,
    play_step game_id move_count (x1, y1, x2, y2) s = Some (rec, s') /\
    r_game_id rec = game_id /\ r_move_number rec = move_count /\
    r_move rec = (x1, y1, x2, y2) /\
    r_board_state rec = board s /\
    r_player rec = other (current_player s) /\
    np_getitem (board s) x1 y1
    = Some (sign_of (current_player s) * r_piece_type rec) /\
    1 <= r_piece_type rec <= 7 /\
    r_captured_piece rec = r_piece_type rec.
Proof.
  intros Hwf H. pose proof (wf_board_shape _ Hwf) as Hs.
  pose proof (wf_board_cells _ Hwf) as Hc.
  pose proof H as Hrun.
  destruct (game_over s) eqn:Hover.
  { rewrite make_move_over in H by exact Hover. discriminate. }
  apply (make_move_cases _ np_getitem_reads s Hs Hover) in H.
  destruct H as [(E & _) | (_ & -> & Hin)]; [discriminate|].
  pose proof (legal_move_distinct _ _ _ _ _ _ Hin) as Hne.
  pose proof (legal_dests_source _ _ _ _ _ _ Hin) as (H1 & Hown & Hk).
  pose proof (piece_dests_lands _ _ _ _ _ _ Hk) as (nx & ny & E & H2 & _).
  injection E as <- <-. apply piece_dests_kind in Hk.
  rewrite abs8_small in Hk by now apply cells_ok_cell.
  rewrite mul8_sign in Hown by auto using cells_ok_cell, sign_of_cases.
  set (s' := after_move s (x1, y1, x2, y2)) in *.
  assert (Hs' : shape_ok (board s') = true).
  { unfold s'. rewrite board_after_move. now apply shape_ok_moved_board. }
  assert (Hdst : cell (board s') x2 y2 = cell (board s) x1 y1).
  { unfold s'. rewrite board_after_move, cell_moved_board by assumption.
    destruct ((x1 =? x2) && (y1 =? y2)) eqn:E.
    - apply andb_true_iff in E. destruct E as [Ex Ey].
      apply Z.eqb_eq in Ex, Ey. subst. contradiction.
    - now rewrite !Z.eqb_refl. }
  assert (Hnz : (cell (board s) x1 y1 =? 0) = false) by (apply Z.eqb_neq; lia).
  eexists. split.
  { unfold play_step, bind, get_board_state, get_board, get_current_player.
    rewrite Hrun. cbv beta iota.
    rewrite !(board_at_run _ np_getitem_reads s' Hs') by exact H2.
    cbv beta iota. rewrite Hdst, Hnz. cbn [negb].
    rewrite (board_at_run _ np_getitem_reads s' Hs') by exact H2.
    cbv beta iota. rewrite Hdst. reflexivity. }
  cbn [r_game_id r_move_number r_move r_board_state r_player r_piece_type
       r_captured_piece].
  rewrite abs8_small by now apply cells_ok_cell.
  destruct (after_move_fields s (x1, y1, x2, y2)) as (Hp & _ & _).
  repeat split; try exact Hp; try lia.
  rewrite (np_getitem_reads _ _ _ Hs H1). f_equal.
  destruct (sign_of_cases (current_player s)) as [E|E]; rewrite E in *; lia.
Qed.

Lemma play_step_record_witness :
  exists rec,
    play_step 1 1 (7, 1, 0, 1) start
    = Some (rec, after_move start (7, 1, 0, 1)) /\
    r_game_id rec = 1 /\ r_move_number rec = 1 /\
    r_move rec = (7, 1, 0, 1) /\
    r_board_state rec = board start /\
    r_player rec = other (current_player start) /\
    np_getitem (board start) 7 1
    = Some (sign_of (current_player start) * r_piece_type rec) /\
    1 <= r_piece_type rec <= 7 /\
    r_captured_piece rec = r_piece_type rec.
Proof. apply (play_step_record start 1 1 7 1 0 1); reflexivity. Defined.

(** ** Order of the generated moves *)

Lemma StronglySorted_app_between {A} (R : A -> A -> Prop) (l1 l2 : list A) :
  StronglySorted R l1 -> StronglySorted R l2 ->
  (forall a c, In a l1 -> In c l2 -> R a c) ->
  StronglySorted R (l1 ++ l2).
Proof.
  induction l1 as [|a l1 IH]; intros H1 H2 H12; simpl; [exact H2|].
  apply StronglySorted_inv in H1. destruct H1 as [H1 Ha].
  constructor.
  - apply IH; [exact H1 | exact H2 |]. intros; apply H12; simpl; auto.
  - apply Forall_app. split; [exact Ha|].
    apply Forall_forall. intros c Hc.
    apply H12; simpl; auto.
Qed.

Lemma StronglySorted_flat_map {A B} (R : B -> B -> Prop) (f : A -> list B)
    (g : Z -> A) (n : nat) :
  (forall k, StronglySorted R (f (g k))) ->
  (forall k k' c c', k < k' -> In c (f (g k)) -> In c' (f (g k')) -> R c c') ->
  forall lo, StronglySorted R (flat_map (fun k => f (g k)) (zseq lo n)).
Proof.
  intros Hin Hout. induction n as [|n IH]; intros lo'; simpl; [constructor|].
  apply StronglySorted_app_between; [apply Hin | apply IH |].
  intros c c' Hc Hc'. apply in_flat_map in Hc'. destruct Hc' as (k' & Hk' & Hc').
  apply in_zseq in Hk'. apply (Hout lo' k'); [lia | exact Hc | exact Hc'].
Qed.

Lemma StronglySorted_lookup {A} (R : A -> A -> Prop) (l : list A) :
  StronglySorted R l ->
  forall i j a c, (i < j)%nat -> l !! i = Some a -> l !! j = Some c -> R a c.
Proof.
  induction 1 as [|x l Hl IH Hx]; intros i j a c Hij Hi Hj; [discriminate|].
  destruct j as [|j]; [lia|]. destruct i as [|i]; simpl in *.
  - injection Hi as <-. rewrite Forall_forall in Hx. apply Hx.
    apply list_elem_of_In, list_elem_of_lookup. eauto.
  - apply (IH i j); [lia | exact Hi | exact Hj].
Qed.

Lemma same_source_sorted (l : list move) x y :
  (forall m, In m l -> exists nx ny, m = (x, y, nx, ny)) ->
  StronglySorted source_le l.
Proof.
  induction l as [|m l IH]; intros H; constructor.
  - apply IH. intros; apply H; simpl; auto.
  - apply Forall_forall. intros m' Hm'.
    destruct (H m ltac:(simpl; auto)) as (nx & ny & ->).
    destruct (H m' ltac:(simpl; auto)) as (nx' & ny' & ->).
    unfold source_le. lia.
Qed.

Lemma legal_dests_sorted b sign : StronglySorted source_le (legal_dests b sign).
Proof.
  unfold legal_dests, range.
  apply (StronglySorted_flat_map source_le
           (fun i => flat_map
              (fun j => if 0 <? mul8 (cell b i j) sign
                        then piece_dests b i j (abs8 (cell b i j)) sign
                        else []) (zseq 0 (Z.to_nat (9 - 0))))
           (fun i => i)).
  - intros i.
    apply (StronglySorted_flat_map source_le
             (fun j => if 0 <? mul8 (cell b i j) sign
                       then piece_dests b i j (abs8 (cell b i j)) sign
                       else []) (fun j => j)).
    + intros j. apply (same_source_sorted _ i j). intros m Hm.
      destruct (0 <? mul8 (cell b i j) sign); [|contradiction].
      apply piece_dests_lands in Hm. destruct Hm as (nx & ny & -> & _). eauto.
    + intros j j' c c' Hjj Hc Hc'.
      destruct (0 <? mul8 (cell b i j) sign); [|contradiction].
      destruct (0 <? mul8 (cell b i j') sign); [|contradiction].
      apply piece_dests_lands in Hc, Hc'.
      destruct Hc as (nx & ny & -> & _). destruct Hc' as (nx' & ny' & -> & _).
      unfold source_le. lia.
  - intros i i' c c' Hii Hc Hc'.
    apply in_flat_map in Hc, Hc'.
    destruct Hc as (j & _ & Hc). destruct Hc' as (j' & _ & Hc').
    destruct (0 <? mul8 (cell b i j) sign); [|contradiction].
    destruct (0 <? mul8 (cell b i' j') sign); [|contradiction].
    apply piece_dests_lands in Hc, Hc'.
    destruct Hc as (nx & ny & -> & _). destruct Hc' as (nx' & ny' & -> & _).
    unfold source_le. lia.
Qed.

(** [get_legal_moves] lists the moves by source square in row-major order:
    of two moves in the list, the earlier one starts on a lower row, or on
    the same row and a column that is not higher. *)
Theorem get_legal_moves_order (s : ChineseChess) (p : player) :
  shape_ok (board s) = true ->
  exists ms,
    get_legal_moves np_getitem p s = Some (ms, s) /\
    forall i j a1 b1 c1 d1 a2 b2 c2 d2,
      (i < j)%nat ->
      ms !! i = Some (a1, b1, c1, d1) -> ms !! j = Some (a2, b2, c2, d2) ->
      a1 < a2 \/ (a1 = a2 /\ b1 <= b2).
Proof.
  intros Hs. exists (legal_dests (board s) (sign_of p)).
  split; [now apply get_legal_moves_run; [apply np_getitem_reads|]|].
  intros i j a1 b1 c1 d1 a2 b2 c2 d2 Hij Hi Hj.
  exact (StronglySorted_lookup source_le _ (legal_dests_sorted _ _)
           i j _ _ Hij Hi Hj).
Qed.

Lemma get_legal_moves_order_witness :
  exists ms,
    get_legal_moves np_getitem Red start = Some (ms, start) /\
    forall i j a1 b1 c1 d1 a2 b2 c2 d2,
      (i < j)%nat ->
      ms !! i = Some (a1, b1, c1, d1) -> ms !! j = Some (a2, b2, c2, d2) ->
      a1 < a2 \/ (a1 = a2 /\ b1 <= b2).
Proof. apply (get_legal_moves_order start Red). reflexivity. Defined.
